(** * Homebrew::AvlTree and Homebrew::AvlMap: a shallow embedding

    The development follows [avltree.hpp] (the set, [AvlTree<T>]),
    [avlmap.hpp] (the map, [AvlMap<Key,Value>]) and, for comparison,
    [avltree_raw_pointers.hpp], all instantiated at [int] as the driver
    [main.cpp] does: keys and values are integers, compared with [<] and
    [==] and never computed with.

    - A [std::unique_ptr<Node>] is a [tree]: [Leaf] is [nullptr], [Node] owns
      its two children.  A [unique_ptr<Node>&] parameter that the source
      rewrites in place becomes an argument and a result.
    - [std::int32_t height] is a [Z].  Only [max] and [+ 1] are applied to it.
    - [std::size_t sz] is a [Z] kept in [0, 2^64) by [wrap]; [++sz] and [--sz]
      are written with their wrap-around.
    - The member [sz] that [insert_util] and [remove_util] of the set update
      while they recurse is threaded through them explicitly.
    - An operation that can throw or dereference a null pointer returns an
      [outcome].
    - The const overload of [AvlMap::at], whose body is a call of itself, is
      an interaction tree built with [rec] and [call]. *)

From ITree Require Import ITree ITreeFacts.
From Stdlib Require Import ZArith List Bool Lia Sorted.
Import ListNotations.
Local Open Scope Z_scope.

(** ** Machine integers *)

Definition size_max : Z := 2 ^ 64 - 1.

(** [std::size_t] arithmetic is modulo [2^64]. *)
Definition wrap (n : Z) : Z := n mod 2 ^ 64.

Definition incr (sz : Z) : Z := wrap (sz + 1).
Definition decr (sz : Z) : Z := wrap (sz - 1).

(** Strictly ascending sequences of keys: what an in-order traversal of a
    binary search tree produces. *)
Fixpoint ascending (ks : list Z) : bool :=
  match ks with
  | [] => true
  | k :: ks' =>
      match ks' with
      | [] => true
      | k' :: _ => (k <? k') && ascending ks'
      end
  end.

(** Reference operations on the in-order sequence of a search tree whose
    nodes carry a payload with a key: the element with key [k], and adding an
    element where no element has its key. *)
Section Sequences.
Context {A : Type} (key_of : A -> Z).

Definition assoc (k : Z) (es : list A) : option A :=
  find (fun e => key_of e =? k) es.

Fixpoint add_absent (a : A) (es : list A) : list A :=
  match es with
  | [] => [a]
  | e :: es' =>
      if key_of a <? key_of e then a :: es
      else if key_of e <? key_of a then e :: add_absent a es'
      else es
  end.
End Sequences.

(** ** Results of operations that may fail *)

Inductive exn : Type :=
| EmptyContainer   (* std::logic_error("Empty container") *)
| NotFound.        (* std::out_of_range("Elem not found error") *)

Inductive outcome (A : Type) : Type :=
| Returned (a : A)
| Thrown (e : exn)
| NullDeref.       (* a null [Node*] is dereferenced: undefined behaviour *)

Arguments Returned {A} a.
Arguments Thrown {A} e.
Arguments NullDeref {A}.

(** ** Nodes

    [struct Node { unique_ptr<Node> left, right; ...payload...; int32_t height; }].
    The payload is [T data] in the set and [Key key; Value value] in the map;
    the rotations and [balance] never look at it, and their text is the same
    in both headers, so they are written once over any payload. *)

Inductive tree (A : Type) : Type :=
| Leaf
| Node (left right : tree A) (data : A) (height : Z).

Arguments Leaf {A}.
Arguments Node {A} left right data height.

Section Engine.
Context {A : Type}.

Definition is_null (t : tree A) : bool :=
  match t with Leaf => true | Node _ _ _ _ => false end.

(** [height(node)]: [node == nullptr ? -1 : node->height]. *)
Definition height (node : tree A) : Z :=
  match node with
  | Leaf => -1
  | Node _ _ _ h => h
  end.

Definition left_of (t : tree A) : tree A :=
  match t with Leaf => Leaf | Node l _ _ _ => l end.

Definition right_of (t : tree A) : tree A :=
  match t with Leaf => Leaf | Node _ r _ _ => r end.

(** [rotateWithLeftChild(k2)].  [k1 = k2->left] must be a node; [balance]
    calls it only then (see [balance_left_heavy_shape]).  On a null [k1] the
    source dereferences null; the model leaves the tree as it is. *)
Definition rotateWithLeftChild (k2 : tree A) : tree A :=
  match k2 with
  | Node (Node k1l k1r k1d _) k2r k2d _ =>
      let k2h := Z.max (height k1r) (height k2r) + 1 in
      let k1h := Z.max (height k1l) k2h + 1 in
      Node k1l (Node k1r k2r k2d k2h) k1d k1h
  | _ => k2
  end.

(** [rotateWithRightChild(k1)], the mirror image. *)
Definition rotateWithRightChild (k1 : tree A) : tree A :=
  match k1 with
  | Node k1l (Node k2l k2r k2d _) k1d _ =>
      let k1h := Z.max (height k1l) (height k2l) + 1 in
      let k2h := Z.max (height k2r) k1h + 1 in
      Node (Node k1l k2l k1d k1h) k2r k2d k2h
  | _ => k1
  end.

(** [doubleWithLeftChild(k3)]:
    [rotateWithRightChild(k3->left); rotateWithLeftChild(k3);]. *)
Definition doubleWithLeftChild (k3 : tree A) : tree A :=
  match k3 with
  | Node l r d h => rotateWithLeftChild (Node (rotateWithRightChild l) r d h)
  | Leaf => Leaf
  end.

(** [doubleWithRightChild(k1)]:
    [rotateWithLeftChild(k1->right); rotateWithRightChild(k1);]. *)
Definition doubleWithRightChild (k1 : tree A) : tree A :=
  match k1 with
  | Node l r d h => rotateWithRightChild (Node l (rotateWithLeftChild r) d h)
  | Leaf => Leaf
  end.

Definition ALLOWED_IMBALANCE : Z := 1.

(** The last statement of [balance]:
    [t->height = max(height(t->left), height(t->right)) + 1]. *)
Definition update_height (t : tree A) : tree A :=
  match t with
  | Leaf => Leaf
  | Node l r d _ => Node l r d (Z.max (height l) (height r) + 1)
  end.

(** The rotation [balance] selects, before the final height update. *)
Definition rebalance (t : tree A) : tree A :=
  if height (left_of t) - height (right_of t) >? ALLOWED_IMBALANCE then
    if height (left_of (left_of t)) >=? height (right_of (left_of t))
    then rotateWithLeftChild t
    else doubleWithLeftChild t
  else if height (right_of t) - height (left_of t) >? ALLOWED_IMBALANCE then
    if height (right_of (right_of t)) >=? height (left_of (right_of t))
    then rotateWithRightChild t
    else doubleWithRightChild t
  else t.

(** [balance(t)]. *)
Definition balance (t : tree A) : tree A :=
  match t with
  | Leaf => Leaf
  | Node _ _ _ _ => update_height (rebalance t)
  end.

(** [findMin(node)]: the leftmost node, [nullptr] on an empty tree. *)
Fixpoint findMin (node : tree A) : tree A :=
  match node with
  | Leaf => Leaf
  | Node Leaf _ _ _ => node
  | Node l _ _ _ => findMin l
  end.

(** [findMax(node)]: the rightmost node. *)
Fixpoint findMax (node : tree A) : tree A :=
  match node with
  | Leaf => Leaf
  | Node _ Leaf _ _ => node
  | Node _ r _ _ => findMax r
  end.

(** [*p] for a [Node* p]. *)
Definition deref (p : tree A) : outcome A :=
  match p with
  | Leaf => NullDeref
  | Node _ _ d _ => Returned d
  end.

(** [clone(node)]: a structural copy, cached heights included. *)
Fixpoint clone (node : tree A) : tree A :=
  match node with
  | Leaf => Leaf
  | Node l r d h => Node (clone l) (clone r) d h
  end.

(** The order in which [print(t)] visits the nodes. *)
Fixpoint inorder (t : tree A) : list A :=
  match t with
  | Leaf => []
  | Node l r d _ => inorder l ++ d :: inorder r
  end.

(** Number of nodes reachable from [t]. *)
Fixpoint node_count (t : tree A) : Z :=
  match t with
  | Leaf => 0
  | Node l r _ _ => node_count l + node_count r + 1
  end.

(** Length of the longest downward path, [-1] for the empty tree
    (the glossary's height, as opposed to the cached field). *)
Fixpoint real_height (t : tree A) : Z :=
  match t with
  | Leaf => -1
  | Node l r _ _ => Z.max (real_height l) (real_height r) + 1
  end.

(** AVL balance at every node, on the heights of the subtrees. *)
Fixpoint balanced (t : tree A) : bool :=
  match t with
  | Leaf => true
  | Node l r _ _ =>
      (Z.abs (real_height l - real_height r) <=? 1) && balanced l && balanced r
  end.

(** Every cached height is [1 + max] of the children's cached heights. *)
Fixpoint heights_ok (t : tree A) : bool :=
  match t with
  | Leaf => true
  | Node l r _ h =>
      (h =? Z.max (height l) (height r) + 1) && heights_ok l && heights_ok r
  end.

(** The AVL invariant on the cached heights: at every node the field is
    [1 + max] of the children's and the children's differ by at most one. *)
Fixpoint avl_inv (t : tree A) : Prop :=
  match t with
  | Leaf => True
  | Node l r _ h =>
      avl_inv l /\ avl_inv r /\
      h = Z.max (height l) (height r) + 1 /\
      Z.abs (height l - height r) <= 1
  end.

(** The same, decided: correct cached heights and balance. *)
Definition avl (t : tree A) : bool := heights_ok t && balanced t.

(** No cached height is negative.  Every node is created with height 0 and
    every later write is a [max ... + 1] of values that are at least -1. *)
Fixpoint heights_nonneg (t : tree A) : bool :=
  match t with
  | Leaf => true
  | Node l r _ h => (0 <=? h) && heights_nonneg l && heights_nonneg r
  end.

(** Slots.  [AvlMap::search] returns a [unique_ptr<Node>&], a reference to
    the root slot or to a child slot inside the tree.  Such a reference is
    the list of turns that leads to it from the root. *)
Inductive turn : Type := GoLeft | GoRight.

Definition slot : Type := list turn.

Fixpoint slot_get (p : slot) (t : tree A) : tree A :=
  match p, t with
  | [], _ => t
  | GoLeft :: p', Node l _ _ _ => slot_get p' l
  | GoRight :: p', Node _ r _ _ => slot_get p' r
  | _ :: _, Leaf => Leaf
  end.

Fixpoint slot_set (p : slot) (s : tree A) (t : tree A) : tree A :=
  match p, t with
  | [], _ => s
  | GoLeft :: p', Node l r d h => Node (slot_set p' s l) r d h
  | GoRight :: p', Node l r d h => Node l (slot_set p' s r) d h
  | _ :: _, Leaf => Leaf
  end.
End Engine.

Arguments height : simpl nomatch.
Arguments left_of : simpl nomatch.
Arguments right_of : simpl nomatch.

(** ** The set: [AvlTree<int>] of avltree.hpp *)

Module AvlTree.

(** The two data members: [root] and [sz]. *)
Record t : Type := mk { root : tree Z; sz : Z }.

(** [AvlTree()]. *)
Definition new : t := mk Leaf 0.

(** [empty()]: [sz == 0]. *)
Definition empty (s : t) : bool := sz s =? 0.

(** [size()]. *)
Definition size (s : t) : Z := sz s.

(** [insert_util(x, t)].  The second component is the member [sz], which
    the duplicate branch decrements. *)
Fixpoint insert_util (x : Z) (t : tree Z) (sz : Z) : tree Z * Z :=
  match t with
  | Leaf => (balance (Node Leaf Leaf x 0), sz)
  | Node l r d h =>
      if x <? d then
        let (l', sz') := insert_util x l sz in (balance (Node l' r d h), sz')
      else if d <? x then
        let (r', sz') := insert_util x r sz in (balance (Node l r' d h), sz')
      else (* duplicate key *)
        (balance t, decr sz)
  end.

(** [insert(first)]: [insert_util(first, root); ++sz;]. *)
Definition insert (x : Z) (s : t) : t :=
  let (r, n) := insert_util x (root s) (sz s) in mk r (incr n).

(** [insert(first, args...)] and the range constructor: one [insert] per
    element, in sequence order. *)
Definition insert_all (xs : list Z) (s : t) : t :=
  fold_left (fun acc x => insert x acc) xs s.

Definition from_list (xs : list Z) : t := insert_all xs new.

(** [remove_util(x, t)], branch for branch.  The second component is the
    member [sz]. *)
Fixpoint remove_util (x : Z) (t : tree Z) (sz : Z) : tree Z * Z :=
  match t with
  | Leaf => (Leaf, sz)   (* Item not found; do nothing *)
  | Node l r d h =>
      if x <? d then
        let (l', sz') := remove_util x l sz in (balance (Node l' r d h), sz')
      else if d <? x then
        let (r', sz') := remove_util x r sz in (balance (Node l r' d h), sz')
      else if d =? x then (* duplicate: ++sz; return; *)
        (t, incr sz)
      else if negb (is_null l) && negb (is_null r) then (* Two children *)
        match findMin r with
        | Node _ _ m _ =>
            let (r', sz') := remove_util m r sz in (balance (Node l r' m h), sz')
        | Leaf => (t, sz)   (* not reached: [r] is a node *)
        end
      else (* One child *)
        (balance (if negb (is_null l) then l else r), sz)
  end.

(** [remove(first)]: [remove_util(first, root); --sz;]. *)
Definition remove (x : Z) (s : t) : t :=
  let (r, n) := remove_util x (root s) (sz s) in mk r (decr n).

Definition remove_all (xs : list Z) (s : t) : t :=
  fold_left (fun acc x => remove x acc) xs s.

(** [min_element()]. *)
Definition min_element (s : t) : outcome Z :=
  if empty s then Thrown EmptyContainer else deref (findMin (root s)).

(** [max_element()]. *)
Definition max_element (s : t) : outcome Z :=
  if empty s then Thrown EmptyContainer else deref (findMax (root s)).

(** [clear()]: [root.reset(nullptr);]. *)
Definition clear (s : t) : t := mk Leaf (sz s).

(** The private [search(x, node)]: the node found, or [nullptr]. *)
Fixpoint search_node (x : Z) (node : tree Z) : tree Z :=
  match node with
  | Leaf => Leaf
  | Node l r d _ =>
      if x <? d then search_node x l
      else if d <? x then search_node x r
      else node
  end.

(** The public [search(x)]. *)
Definition search (x : Z) (s : t) : bool := negb (is_null (search_node x (root s))).

(** What [print()] enumerates. *)
Definition elements (s : t) : list Z := inorder (root s).

(** The binary-search-tree invariant, read off the in-order traversal. *)
Definition bst (s : t) : bool := ascending (elements s).

(** The public mutating operations, and the state after a sequence of them
    applied to a fresh set. *)
Inductive op : Type :=
| Insert (x : Z)
| Remove (x : Z)
| Clear.

Definition run_op (s : t) (o : op) : t :=
  match o with
  | Insert x => insert x s
  | Remove x => remove x s
  | Clear => clear s
  end.

Definition run (ops : list op) : t := fold_left run_op ops new.

End AvlTree.

(** ** The map: [AvlMap<int,int>] of avlmap.hpp *)

Module AvlMap.

(** The payload of a node: [Key key; Value value;]. *)
Record entry : Type := Entry { key : Z; value : Z }.

(** [Value()] for [int]. *)
Definition default_value : Z := 0.

Record t : Type := mk { root : tree entry; sz : Z }.

(** [AvlMap()]. *)
Definition new : t := mk Leaf 0.

(** [clear()]: [root.reset(nullptr);]. *)
Definition clear (m : t) : t := mk Leaf (sz m).

Definition empty (m : t) : bool := sz m =? 0.

Definition size (m : t) : Z := sz m.

(** [insert_util(k, v, t)]. *)
Fixpoint insert_util (k v : Z) (t : tree entry) : tree entry :=
  match t with
  | Leaf => balance (Node Leaf Leaf (Entry k v) 0)
  | Node l r e h =>
      if k <? key e then balance (Node (insert_util k v l) r e h)
      else if key e <? k then balance (Node l (insert_util k v r) e h)
      else balance t
  end.

(** [insert(k, v)]: [insert_util(k, v, root); ++sz;]. *)
Definition insert (k v : Z) (m : t) : t :=
  mk (insert_util k v (root m)) (incr (sz m)).

(** The range and initializer-list constructors. *)
Definition from_list (kvs : list (Z * Z)) : t :=
  fold_left (fun acc kv => insert (fst kv) (snd kv) acc) kvs new.

(** [remove_util(x, t)].  In the two-children case only [t->key] is
    assigned; [t->value] keeps what it held. *)
Fixpoint remove_util (x : Z) (t : tree entry) : tree entry :=
  match t with
  | Leaf => Leaf   (* Item not found; do nothing *)
  | Node l r e h =>
      if x <? key e then balance (Node (remove_util x l) r e h)
      else if key e <? x then balance (Node l (remove_util x r) e h)
      else if negb (is_null l) && negb (is_null r) then (* Two children *)
        match findMin r with
        | Node _ _ m _ =>
            balance (Node l (remove_util (key m) r) (Entry (key m) (value e)) h)
        | Leaf => t   (* not reached: [r] is a node *)
        end
      else (* One child *)
        balance (if negb (is_null l) then l else r)
  end.

(** [erase(k)]: [remove_util(k, root); --sz;]. *)
Definition erase (k : Z) (m : t) : t :=
  mk (remove_util k (root m)) (decr (sz m)).

(** The [while(true)] loop of the private [search(x, t)].  [tmp] is a live
    node whose key differs from [x].  [None] stands for the loop going
    round without moving, which happens when neither comparison holds. *)
Fixpoint search_loop (x : Z) (tmp : tree entry) : option slot :=
  match tmp with
  | Leaf => None
  | Node l r e _ =>
      if x <? key e then
        match l with
        | Leaf => Some [GoLeft]
        | Node _ _ le _ =>
            if key le =? x then Some [GoLeft]
            else option_map (cons GoLeft) (search_loop x l)
        end
      else if key e <? x then
        match r with
        | Leaf => Some [GoRight]
        | Node _ _ re _ =>
            if key re =? x then Some [GoRight]
            else option_map (cons GoRight) (search_loop x r)
        end
      else None
  end.

(** The private [search(x, t)]: the slot that holds the node with key [x],
    or the empty slot where the descent ends. *)
Definition search_slot (x : Z) (t : tree entry) : option slot :=
  match t with
  | Leaf => Some []
  | Node _ _ e _ => if key e =? x then Some [] else search_loop x t
  end.

(** The public [search(x)]: [search(x, root) != nullptr]. *)
Definition search (x : Z) (m : t) : option bool :=
  option_map (fun p => negb (is_null (slot_get p (root m)))) (search_slot x (root m)).

(** Reading a [Value&] obtained from the slot [p] ([*ptr] through
    [operator Value&]). *)
Definition read (p : slot) (m : t) : outcome Z :=
  match deref (slot_get p (root m)) with
  | Returned e => Returned (value e)
  | Thrown x => Thrown x
  | NullDeref => NullDeref
  end.

(** Assigning through a [Value&] obtained from the slot [p]. *)
Definition assign (p : slot) (v : Z) (m : t) : t :=
  match slot_get p (root m) with
  | Node l r e h => mk (slot_set p (Node l r (Entry (key e) v) h) (root m)) (sz m)
  | Leaf => m
  end.

(** The non-const [operator[](k)].  The result is the map afterwards and
    the slot whose node's value the returned reference designates.
    [insert_util] is applied to the slot that [search] returned. *)
Definition subscript (k : Z) (m : t) : option (t * slot) :=
  match search_slot k (root m) with
  | None => None
  | Some ptr =>
      if is_null (slot_get ptr (root m)) then
        (* insert default constructed value *)
        let ptr' := insert_util k default_value (slot_get ptr (root m)) in
        Some (mk (slot_set ptr ptr' (root m)) (incr (sz m)), ptr)
      else Some (m, ptr)
  end.

(** The expression statement [m[k];]: the map after the access, the
    returned reference dropped. *)
Definition touch (k : Z) (m : t) : t :=
  match subscript k m with
  | Some (m', _) => m'
  | None => m
  end.

(** The non-const [at(k)]. *)
Definition at_ (k : Z) (m : t) : option (outcome Z) :=
  match search_slot k (root m) with
  | None => None
  | Some ptr =>
      if is_null (slot_get ptr (root m)) then Some (Thrown NotFound)
      else Some (read ptr m)
  end.

(** What [print()] enumerates. *)
Definition entries (m : t) : list (Z * Z) :=
  map (fun e => (key e, value e)) (inorder (root m)).

Definition keys (m : t) : list Z := map key (inorder (root m)).

(** The const [at(k)]: [return at(k);].  Inside a const member function
    [this] is const, so the call resolves to the const overload again: the
    body is one call of the function itself, with the same map and key. *)
Definition at_const_body (a : t * Z)
  : itree (callE (t * Z) (outcome Z) +' void1) (outcome Z) :=
  call a.

Definition at_const (m : t) (k : Z) : itree void1 (outcome Z) :=
  rec at_const_body (m, k).

(** The recursive formulation of the private [search(x, t)], which the
    source keeps in a comment above the loop, as the slot it designates. *)
Fixpoint search_path (x : Z) (t : tree entry) : slot :=
  match t with
  | Leaf => []
  | Node l r e _ =>
      if key e =? x then []
      else if x <? key e then GoLeft :: search_path x l
      else GoRight :: search_path x r
  end.

(** The binary-search-tree invariant, read off the in-order traversal. *)
Definition bst (m : t) : bool := ascending (keys m).

(** The assignment [m[k] = v;]. *)
Definition store (k v : Z) (m : t) : t :=
  match subscript k m with
  | Some (m', p) => assign p v m'
  | None => m
  end.

(** The public mutating operations, and the state after a sequence of them
    applied to a fresh map. *)
Inductive op : Type :=
| Insert (k v : Z)
| Erase (k : Z)
| Clear
| Subscript (k : Z)
| SubscriptAssign (k v : Z).

Definition run_op (m : t) (o : op) : t :=
  match o with
  | Insert k v => insert k v m
  | Erase k => erase k m
  | Clear => clear m
  | Subscript k => touch k m
  | SubscriptAssign k v => store k v m
  end.

Definition run (ops : list op) : t := fold_left run_op ops new.

Definition uses_subscript (o : op) : bool :=
  match o with
  | Subscript _ | SubscriptAssign _ _ => true
  | _ => false
  end.

(** The tree in which no node has a left child: the keys [ks] from the root
    downwards, each with the default value and the cached height 0. *)
Fixpoint right_spine (ks : list Z) : tree entry :=
  match ks with
  | [] => Leaf
  | k :: ks' => Node Leaf (right_spine ks') (Entry k default_value) 0
  end.

End AvlMap.

(** ** The set on raw pointers: [AvlTree<int>] of avltree_raw_pointers.hpp

    The same tree with [Node*] children.  Its rotations and [balance] compute
    what the ones above compute; it differs in [empty()], which tests the
    root, in [insert_util], which has no duplicate branch, and in
    [remove_util], which has no [t->data == x] branch. *)

Module AvlTreeRaw.

Record t : Type := mk { root : tree Z; sz : Z }.

Definition new : t := mk Leaf 0.

(** [empty()]: [root == nullptr]. *)
Definition empty (s : t) : bool := is_null (root s).

Definition size (s : t) : Z := sz s.

(** [insert_util(x, t)]. *)
Fixpoint insert_util (x : Z) (t : tree Z) : tree Z :=
  match t with
  | Leaf => balance (Node Leaf Leaf x 0)
  | Node l r d h =>
      if x <? d then balance (Node (insert_util x l) r d h)
      else if x >? d then balance (Node l (insert_util x r) d h)
      else balance t
  end.

Definition insert (x : Z) (s : t) : t := mk (insert_util x (root s)) (incr (sz s)).

Definition from_list (xs : list Z) : t :=
  fold_left (fun acc x => insert x acc) xs new.

(** [remove_util(x, t)]. *)
Fixpoint remove_util (x : Z) (t : tree Z) : tree Z :=
  match t with
  | Leaf => Leaf   (* Item not found; do nothing *)
  | Node l r d h =>
      if x <? d then balance (Node (remove_util x l) r d h)
      else if x >? d then balance (Node l (remove_util x r) d h)
      else if negb (is_null l) && negb (is_null r) then (* Two children *)
        match findMin r with
        | Node _ _ m _ => balance (Node l (remove_util m r) m h)
        | Leaf => t   (* not reached: [r] is a node *)
        end
      else (* One children *)
        balance (if negb (is_null l) then l else r)
  end.

Definition remove (x : Z) (s : t) : t := mk (remove_util x (root s)) (decr (sz s)).

(** [min_element()]: [findMin(root)->data] unless [empty()]. *)
Definition min_element (s : t) : outcome Z :=
  if empty s then Thrown EmptyContainer else deref (findMin (root s)).

Definition max_element (s : t) : outcome Z :=
  if empty s then Thrown EmptyContainer else deref (findMax (root s)).

(** [clear()]: [delete root; root = nullptr;]. *)
Definition clear (s : t) : t := mk Leaf (sz s).

Definition elements (s : t) : list Z := inorder (root s).

End AvlTreeRaw.

(** * Properties *)

(** ** The engine: rotations and [balance] *)

Section EngineFacts.
Context {A : Type}.
Implicit Types t l r : tree A.

Lemma inorder_rotateWithLeftChild t :
  inorder (rotateWithLeftChild t) = inorder t.
Proof.
  destruct t as [|[|ll lr ld lh] r d h]; simpl; trivial.
  now rewrite <- app_assoc.
Qed.

Lemma inorder_rotateWithRightChild t :
  inorder (rotateWithRightChild t) = inorder t.
Proof.
  destruct t as [|l [|rl rr rd rh] d h]; simpl; trivial.
  now rewrite <- app_assoc.
Qed.

Lemma inorder_doubleWithLeftChild t :
  inorder (doubleWithLeftChild t) = inorder t.
Proof.
  destruct t as [|l r d h]; trivial. unfold doubleWithLeftChild.
  rewrite inorder_rotateWithLeftChild. simpl.
  now rewrite inorder_rotateWithRightChild.
Qed.

Lemma inorder_doubleWithRightChild t :
  inorder (doubleWithRightChild t) = inorder t.
Proof.
  destruct t as [|l r d h]; trivial. unfold doubleWithRightChild.
  rewrite inorder_rotateWithRightChild. simpl.
  now rewrite inorder_rotateWithLeftChild.
Qed.

Lemma inorder_update_height t : inorder (update_height t) = inorder t.
Proof. now destruct t. Qed.

Lemma inorder_rebalance t : inorder (rebalance t) = inorder t.
Proof.
  unfold rebalance.
  repeat match goal with |- context [if ?c then _ else _] => destruct c end;
    auto using inorder_rotateWithLeftChild, inorder_rotateWithRightChild,
               inorder_doubleWithLeftChild, inorder_doubleWithRightChild.
Qed.

(** Rebalancing moves nodes around but never changes what an in-order
    traversal enumerates. *)
Lemma inorder_balance t : inorder (balance t) = inorder t.
Proof.
  destruct t as [|l r d h]; trivial. unfold balance.
  now rewrite inorder_update_height, inorder_rebalance.
Qed.

Lemma node_count_inorder t : node_count t = Z.of_nat (length (inorder t)).
Proof.
  induction t as [|l IHl r IHr d h]; simpl; trivial.
  rewrite length_app. simpl. lia.
Qed.


Lemma height_lower_bound t : heights_nonneg t = true -> -1 <= height t.
Proof.
  destruct t as [|l r d h]; simpl; [lia|].
  rewrite !andb_true_iff, Z.leb_le. intros [[H _] _]. lia.
Qed.

Lemma heights_nonneg_node l r d h :
  heights_nonneg (Node l r d h) = true <->
  0 <= h /\ heights_nonneg l = true /\ heights_nonneg r = true.
Proof. simpl. rewrite !andb_true_iff, Z.leb_le. tauto. Qed.

(** A node that [balance] finds left-heavy has a left child, so the
    [t->left->left] it reads and the rotation it starts are defined. *)
Lemma balance_left_heavy_shape l r d h :
  heights_nonneg (Node l r d h) = true ->
  height l - height r > ALLOWED_IMBALANCE ->
  exists ll lr ld lh, l = Node ll lr ld lh.
Proof.
  intros Hn Hh. apply heights_nonneg_node in Hn as (_ & Hl & Hr).
  apply height_lower_bound in Hr. unfold ALLOWED_IMBALANCE in Hh.
  destruct l as [|ll lr ld lh]; cbn [height] in Hh; [lia|]. now eauto.
Qed.

Lemma balance_right_heavy_shape l r d h :
  heights_nonneg (Node l r d h) = true ->
  height r - height l > ALLOWED_IMBALANCE ->
  exists rl rr rd rh, r = Node rl rr rd rh.
Proof.
  intros Hn Hh. apply heights_nonneg_node in Hn as (_ & Hl & Hr).
  apply height_lower_bound in Hl. unfold ALLOWED_IMBALANCE in Hh.
  destruct r as [|rl rr rd rh]; cbn [height] in Hh; [lia|]. now eauto.
Qed.

(** The inner child a double rotation lifts is a node as well. *)
Lemma inner_child_shape (outer inner : tree A) :
  heights_nonneg outer = true ->
  height outer < height inner ->
  exists il ir id ih, inner = Node il ir id ih.
Proof.
  intros Hn Hh. apply height_lower_bound in Hn.
  destruct inner as [|il ir id ih]; cbn [height] in Hh; [lia|]. now eauto.
Qed.
End EngineFacts.

(** ** The choice of rotation *)

(** C9.  On a node whose cached child heights differ by more than one,
    [balance] rotates exactly as the inner comparison says.  Left-heavy:
    the single rotation [rotateWithLeftChild] when
    [height(left.left) >= height(left.right)], a tie included, and
    [doubleWithLeftChild] otherwise; right-heavy: the mirror image.  The
    resulting subtree, with the heights written into it, is the one displayed;
    a node that is not out of balance keeps its shape. *)
Theorem balance_rotation_choice {A : Type} (l r : tree A) (d : A) (h : Z) :
  heights_nonneg (Node l r d h) = true ->
  (height l - height r > 1 ->
   exists ll lr ld lh, l = Node ll lr ld lh /\
     (height ll >= height lr ->
      rebalance (Node l r d h) = rotateWithLeftChild (Node l r d h) /\
      balance (Node l r d h) =
        let h2 := Z.max (height lr) (height r) + 1 in
        Node ll (Node lr r d h2) ld (Z.max (height ll) h2 + 1)) /\
     (height ll < height lr ->
      exists lrl lrr lrd lrh, lr = Node lrl lrr lrd lrh /\
        rebalance (Node l r d h) = doubleWithLeftChild (Node l r d h) /\
        balance (Node l r d h) =
          let h1 := Z.max (height ll) (height lrl) + 1 in
          let h3 := Z.max (height lrr) (height r) + 1 in
          Node (Node ll lrl ld h1) (Node lrr r d h3) lrd (Z.max h1 h3 + 1))) /\
  (height r - height l > 1 ->
   exists rl rr rd rh, r = Node rl rr rd rh /\
     (height rr >= height rl ->
      rebalance (Node l r d h) = rotateWithRightChild (Node l r d h) /\
      balance (Node l r d h) =
        let h1 := Z.max (height l) (height rl) + 1 in
        Node (Node l rl d h1) rr rd (Z.max (height rr) h1 + 1)) /\
     (height rr < height rl ->
      exists rll rlr rld rlh, rl = Node rll rlr rld rlh /\
        rebalance (Node l r d h) = doubleWithRightChild (Node l r d h) /\
        balance (Node l r d h) =
          let h1 := Z.max (height l) (height rll) + 1 in
          let h3 := Z.max (height rlr) (height rr) + 1 in
          Node (Node l rll d h1) (Node rlr rr rd h3) rld (Z.max h1 h3 + 1))) /\
  (height l - height r <= 1 -> height r - height l <= 1 ->
   balance (Node l r d h) = Node l r d (Z.max (height l) (height r) + 1)).
Proof.
  intros Hn. split; [|split].
  - intros Hh.
    destruct (balance_left_heavy_shape l r d h Hn) as (ll & lr & ld & lh & ->);
      [unfold ALLOWED_IMBALANCE; lia|].
    exists ll, lr, ld, lh. split; [reflexivity|].
    assert (Hg : (height (Node ll lr ld lh) - height r >? ALLOWED_IMBALANCE) = true)
      by (apply Z.gtb_lt; unfold ALLOWED_IMBALANCE; lia).
    split.
    + intros Hi.
      assert (Hc : (height ll >=? height lr) = true) by (apply Z.geb_le; lia).
      unfold balance, rebalance. cbn [left_of right_of]. rewrite Hg, Hc.
      split; [reflexivity|]. cbn. f_equal; lia.
    + intros Hi.
      apply heights_nonneg_node in Hn as (_ & Hl & _).
      apply heights_nonneg_node in Hl as (_ & Hll & _).
      destruct (inner_child_shape ll lr Hll Hi) as (lrl & lrr & lrd & lrh & ->).
      exists lrl, lrr, lrd, lrh. split; [reflexivity|].
      assert (Hc : (height ll >=? height (Node lrl lrr lrd lrh)) = false)
        by (rewrite Z.geb_leb; apply Z.leb_gt; lia).
      unfold balance, rebalance. cbn [left_of right_of]. rewrite Hg, Hc.
      split; [reflexivity|]. cbn. f_equal; lia.
  - intros Hh.
    destruct (balance_right_heavy_shape l r d h Hn) as (rl & rr & rd & rh & ->);
      [unfold ALLOWED_IMBALANCE; lia|].
    exists rl, rr, rd, rh. split; [reflexivity|].
    assert (Hg1 : (height l - height (Node rl rr rd rh) >? ALLOWED_IMBALANCE) = false)
      by (rewrite Z.gtb_ltb; apply Z.ltb_ge; unfold ALLOWED_IMBALANCE; lia).
    assert (Hg : (height (Node rl rr rd rh) - height l >? ALLOWED_IMBALANCE) = true)
      by (apply Z.gtb_lt; unfold ALLOWED_IMBALANCE; lia).
    split.
    + intros Hi.
      assert (Hc : (height rr >=? height rl) = true) by (apply Z.geb_le; lia).
      unfold balance, rebalance. cbn [left_of right_of]. rewrite Hg1, Hg, Hc.
      split; [reflexivity|]. cbn. f_equal; lia.
    + intros Hi.
      apply heights_nonneg_node in Hn as (_ & _ & Hr).
      apply heights_nonneg_node in Hr as (_ & _ & Hrr).
      destruct (inner_child_shape rr rl Hrr Hi) as (rll & rlr & rld & rlh & ->).
      exists rll, rlr, rld, rlh. split; [reflexivity|].
      assert (Hc : (height rr >=? height (Node rll rlr rld rlh)) = false)
        by (rewrite Z.geb_leb; apply Z.leb_gt; lia).
      unfold balance, rebalance. cbn [left_of right_of]. rewrite Hg1, Hg, Hc.
      split; [reflexivity|]. cbn. f_equal; lia.
  - intros H1 H2.
    assert (Hg1 : (height l - height r >? ALLOWED_IMBALANCE) = false)
      by (rewrite Z.gtb_ltb; apply Z.ltb_ge; unfold ALLOWED_IMBALANCE; lia).
    assert (Hg2 : (height r - height l >? ALLOWED_IMBALANCE) = false)
      by (rewrite Z.gtb_ltb; apply Z.ltb_ge; unfold ALLOWED_IMBALANCE; lia).
    unfold balance, rebalance. cbn [left_of right_of]. rewrite Hg1, Hg2.
    reflexivity.
Qed.

(** The tie case of C9 on a concrete node, through the theorem: the left child
    of 4 has two children of equal height, the right child is missing, and the
    single rotation is taken. *)
Lemma balance_rotation_choice_witness :
  heights_nonneg
    (Node (Node (Node Leaf Leaf 1 0) (Node Leaf Leaf 3 0) 2 1) Leaf 4 2) = true /\
  balance (Node (Node (Node Leaf Leaf 1 0) (Node Leaf Leaf 3 0) 2 1) Leaf 4 2) =
    Node (Node Leaf Leaf 1 0) (Node (Node Leaf Leaf 3 0) Leaf 4 1) 2 2.
Proof.
  split; [reflexivity|].
  destruct (balance_rotation_choice
              (Node (Node Leaf Leaf 1 0) (Node Leaf Leaf 3 0) 2 1) Leaf 4 2
              eq_refl) as [Hleft _].
  destruct Hleft as (ll & lr & ld & lh & E & Hsingle & _); [cbn; lia|].
  injection E as <- <- <- <-.
  destruct Hsingle as [_ Hb]; [cbn; lia|].
  exact Hb.
Defined.

(** The same tie reached through the map's public interface: erasing 5 from
    the map built from 4, 2, 5, 1, 3 leaves the root 4 left-heavy with a tie
    below, and the result is the single-rotation shape. *)
Example erase_tie_takes_single_rotation :
  AvlMap.root (AvlMap.erase 5 (AvlMap.from_list [(4,0); (2,0); (5,0); (1,0); (3,0)])) =
    Node (Node Leaf Leaf (AvlMap.Entry 1 0) 0)
         (Node (Node Leaf Leaf (AvlMap.Entry 3 0) 0) Leaf (AvlMap.Entry 4 0) 1)
         (AvlMap.Entry 2 0) 2.
Proof. reflexivity. Qed.

(** ** The const overload of [AvlMap::at] *)

(** One unfolding of the call: the function is back at its own entry, one
    silent step later. *)
Lemma at_const_unfold (m : AvlMap.t) (k : Z) :
  AvlMap.at_const m k ≅ Tau (AvlMap.at_const m k).
Proof.
  unfold AvlMap.at_const at 1. unfold rec, mrec.
  unfold calling' at 1. cbn.
  unfold AvlMap.at_const_body at 2. unfold call.
  rewrite unfold_interp_mrec. cbn.
  rewrite bind_ret_r. reflexivity.
Qed.

(** C10.  For every map and key the const [at(k)] is the silent divergence:
    it only ever calls itself, so it produces no result, neither a returned
    value nor a thrown exception. *)
Theorem at_const_never_returns (m : AvlMap.t) (k : Z) :
  AvlMap.at_const m k ≈ ITree.spin /\
  forall o : outcome Z, ~ (AvlMap.at_const m k ≈ Ret o).
Proof.
  assert (Hspin : AvlMap.at_const m k ≈ ITree.spin).
  { einit. ecofix CIH.
    rewrite at_const_unfold. rewrite (itree_eta ITree.spin). cbn.
    etau. }
  split; [exact Hspin|].
  intros o Ho. rewrite Hspin in Ho.
  exact (eutt_spin_Ret_abs o Ho).
Qed.

(** ** The private [search] of the map *)

(** Entered on a node whose key is not [x], the loop leaves with the slot
    that the recursive descent designates: on integer keys one of the two
    comparisons holds at every node it visits. *)
Lemma search_loop_path (x : Z) (t : tree AvlMap.entry) :
  match t with
  | Leaf => True
  | Node _ _ e _ =>
      AvlMap.key e <> x -> AvlMap.search_loop x t = Some (AvlMap.search_path x t)
  end.
Proof.
  induction t as [|l IHl r IHr e h]; [exact I|]. intros Hne.
  cbn [AvlMap.search_loop AvlMap.search_path].
  destruct (Z.eqb_spec (AvlMap.key e) x) as [|_]; [contradiction|].
  destruct (Z.ltb_spec x (AvlMap.key e)) as [Hlt|Hge].
  - destruct l as [|ll lr le lh]; [reflexivity|].
    destruct (Z.eqb_spec (AvlMap.key le) x) as [Heq|Hn].
    + cbn [AvlMap.search_path]. apply Z.eqb_eq in Heq. now rewrite Heq.
    + rewrite (IHl Hn). reflexivity.
  - destruct (Z.ltb_spec (AvlMap.key e) x) as [Hlt'|Hge']; [|lia].
    destruct r as [|rl rr re rh]; [reflexivity|].
    destruct (Z.eqb_spec (AvlMap.key re) x) as [Heq|Hn].
    + cbn [AvlMap.search_path]. apply Z.eqb_eq in Heq. now rewrite Heq.
    + rewrite (IHr Hn). reflexivity.
Qed.

(** [search] always returns, and the iterative text agrees with the
    recursive one kept in the comment. *)
Lemma search_slot_path (x : Z) (t : tree AvlMap.entry) :
  AvlMap.search_slot x t = Some (AvlMap.search_path x t).
Proof.
  destruct t as [|l r e h]; [reflexivity|].
  unfold AvlMap.search_slot. cbn [AvlMap.search_path].
  destruct (Z.eqb_spec (AvlMap.key e) x) as [|Hn]; [reflexivity|].
  pose proof (search_loop_path x (Node l r e h)) as H. cbn beta iota in H.
  rewrite (H Hn). cbn [AvlMap.search_path].
  destruct (Z.eqb_spec (AvlMap.key e) x); [contradiction|reflexivity].
Qed.

(** ** Slots reached by [search] *)

Lemma wrap_small (n : Z) : 0 <= n < 2 ^ 64 -> wrap n = n.
Proof. intros H. unfold wrap. now apply Z.mod_small. Qed.

Lemma search_path_target (x : Z) (t : tree AvlMap.entry) :
  match slot_get (AvlMap.search_path x t) t with
  | Leaf => True
  | Node _ _ e _ => AvlMap.key e = x
  end.
Proof.
  induction t as [|l IHl r IHr e h]; [exact I|].
  cbn [AvlMap.search_path].
  destruct (Z.eqb_spec (AvlMap.key e) x) as [Heq|Hne]; [exact Heq|].
  destruct (x <? AvlMap.key e); [exact IHl|exact IHr].
Qed.

(** Writing a node with key [x] into the slot that the search for [x]
    designates does not move that slot, and the slot then holds the node. *)
Lemma search_path_slot_set (x : Z) (t sl sr : tree AvlMap.entry)
      (e : AvlMap.entry) (h : Z) :
  AvlMap.key e = x ->
  let p := AvlMap.search_path x t in
  AvlMap.search_path x (slot_set p (Node sl sr e h) t) = p /\
  slot_get p (slot_set p (Node sl sr e h) t) = Node sl sr e h.
Proof.
  intros Hk. cbv zeta.
  assert (Hs : AvlMap.search_path x (Node sl sr e h) = [])
    by (cbn; apply Z.eqb_eq in Hk; now rewrite Hk).
  induction t as [|l IHl r IHr e' h']; [now split|].
  cbn [AvlMap.search_path].
  destruct (Z.eqb_spec (AvlMap.key e') x) as [Heq|Hne]; [now split|].
  apply Z.eqb_neq in Hne.
  destruct (x <? AvlMap.key e') eqn:Hlt;
    cbn [slot_set slot_get AvlMap.search_path]; rewrite Hne, Hlt.
  - destruct IHl as [-> ->]. now split.
  - destruct IHr as [-> ->]. now split.
Qed.

(** Filling the empty slot where a search ended adds the new subtree's
    entries at one place of the in-order sequence and moves nothing else. *)
Lemma inorder_slot_set_search (x : Z) (t s : tree AvlMap.entry) :
  slot_get (AvlMap.search_path x t) t = Leaf ->
  exists es1 es2,
    inorder t = es1 ++ es2 /\
    inorder (slot_set (AvlMap.search_path x t) s t) = es1 ++ inorder s ++ es2.
Proof.
  induction t as [|l IHl r IHr e h]; intros Hslot.
  - exists [], []. cbn. now rewrite app_nil_r.
  - cbn [AvlMap.search_path] in *.
    destruct (AvlMap.key e =? x); [discriminate|].
    destruct (x <? AvlMap.key e); cbn [slot_get slot_set inorder] in *.
    + destruct (IHl Hslot) as (es1 & es2 & E1 & E2).
      exists es1, (es2 ++ e :: inorder r). rewrite E1, E2.
      now rewrite <- !app_assoc.
    + destruct (IHr Hslot) as (es1 & es2 & E1 & E2).
      exists (inorder l ++ e :: es1), es2. rewrite E1, E2.
      now rewrite <- !app_assoc.
Qed.

(** ** Access-or-insert *)

(** C7.  In any map, for a key [k] that [search] does not find, the
    non-const [m[k]] puts a fresh node with key [k], the default value and
    height 0 into the empty slot where the search ended, and changes nothing
    else: the in-order sequence gains the entry [(k, Value())] at one place,
    and the node count grows by one.  [sz] is incremented (an exact [+ 1]
    unless the counter is at [SIZE_MAX]), the reference returned reads the
    default value, and a second [m[k]] finds the same slot without changing
    the map; after an assignment through the reference it reads the assigned
    value. *)
Theorem subscript_absent_key_inserts_default (m : AvlMap.t) (k : Z) :
  AvlMap.search k m = Some false ->
  exists p,
    let fresh := Node Leaf Leaf (AvlMap.Entry k AvlMap.default_value) 0 in
    let m' := AvlMap.mk (slot_set p fresh (AvlMap.root m)) (incr (AvlMap.sz m)) in
    AvlMap.subscript k m = Some (m', p) /\
    slot_get p (AvlMap.root m) = Leaf /\
    slot_get p (AvlMap.root m') = fresh /\
    (exists es1 es2,
        AvlMap.entries m = es1 ++ es2 /\
        AvlMap.entries m' = es1 ++ (k, AvlMap.default_value) :: es2) /\
    node_count (AvlMap.root m') = node_count (AvlMap.root m) + 1 /\
    AvlMap.size m' = wrap (AvlMap.size m + 1) /\
    (0 <= AvlMap.size m < size_max -> AvlMap.size m' = AvlMap.size m + 1) /\
    AvlMap.read p m' = Returned AvlMap.default_value /\
    AvlMap.search k m' = Some true /\
    AvlMap.subscript k m' = Some (m', p) /\
    (forall v : Z,
        AvlMap.subscript k (AvlMap.assign p v m') = Some (AvlMap.assign p v m', p) /\
        AvlMap.read p (AvlMap.assign p v m') = Returned v).
Proof.
  destruct m as [t n]. unfold AvlMap.search. cbn [AvlMap.root AvlMap.sz].
  rewrite search_slot_path. cbn [option_map]. intros Habs.
  set (p := AvlMap.search_path k t) in *.
  assert (Hslot : slot_get p t = Leaf).
  { destruct (slot_get p t); [reflexivity|discriminate]. }
  exists p. cbv zeta.
  set (fresh := Node Leaf Leaf (AvlMap.Entry k AvlMap.default_value) 0).
  destruct (search_path_slot_set k t Leaf Leaf
              (AvlMap.Entry k AvlMap.default_value) 0 eq_refl) as [Hp Hget].
  fold p fresh in Hp, Hget.
  destruct (inorder_slot_set_search k t fresh Hslot) as (es1 & es2 & E1 & E2).
  fold p in E2.
  assert (Hsub : AvlMap.subscript k (AvlMap.mk t n) =
                 Some (AvlMap.mk (slot_set p fresh t) (incr n), p)).
  { unfold AvlMap.subscript. cbn [AvlMap.root AvlMap.sz].
    rewrite search_slot_path. fold p. rewrite Hslot. reflexivity. }
  assert (Hagain : AvlMap.subscript k (AvlMap.mk (slot_set p fresh t) (incr n)) =
                   Some (AvlMap.mk (slot_set p fresh t) (incr n), p)).
  { unfold AvlMap.subscript. cbn [AvlMap.root AvlMap.sz].
    rewrite search_slot_path, Hp, Hget. reflexivity. }
  cbn [AvlMap.root AvlMap.sz AvlMap.size].
  split; [exact Hsub|]. split; [exact Hslot|]. split; [exact Hget|].
  split.
  { exists (map (fun e => (AvlMap.key e, AvlMap.value e)) es1),
           (map (fun e => (AvlMap.key e, AvlMap.value e)) es2).
    unfold AvlMap.entries. cbn [AvlMap.root]. rewrite E1, E2.
    now rewrite !map_app. }
  split.
  { rewrite !node_count_inorder, E1, E2, !length_app.
    change (length (inorder fresh)) with 1%nat. lia. }
  split; [reflexivity|].
  split.
  { intros Hn. unfold incr. apply wrap_small. unfold size_max in Hn. lia. }
  split.
  { unfold AvlMap.read. cbn [AvlMap.root]. now rewrite Hget. }
  split.
  { unfold AvlMap.search. cbn [AvlMap.root].
    rewrite search_slot_path, Hp. cbn [option_map]. now rewrite Hget. }
  split; [exact Hagain|].
  intros v.
  assert (Hassign :
            AvlMap.assign p v (AvlMap.mk (slot_set p fresh t) (incr n)) =
            AvlMap.mk (slot_set p (Node Leaf Leaf (AvlMap.Entry k v) 0)
                                (slot_set p fresh t)) (incr n)).
  { unfold AvlMap.assign. cbn [AvlMap.root AvlMap.sz]. rewrite Hget.
    reflexivity. }
  rewrite Hassign.
  destruct (search_path_slot_set k (slot_set p fresh t) Leaf Leaf
              (AvlMap.Entry k v) 0 eq_refl) as [Hp' Hget'].
  rewrite Hp in Hp', Hget'.
  split.
  - unfold AvlMap.subscript. cbn [AvlMap.root AvlMap.sz].
    rewrite search_slot_path, Hp', Hget'. reflexivity.
  - unfold AvlMap.read. cbn [AvlMap.root]. now rewrite Hget'.
Qed.

(** C7 on the map built from 2, 1, 3 and the absent key 5. *)
Lemma subscript_absent_key_inserts_default_witness :
  AvlMap.search 5 (AvlMap.from_list [(2,7); (1,7); (3,7)]) = Some false /\
  exists p m',
    AvlMap.subscript 5 (AvlMap.from_list [(2,7); (1,7); (3,7)]) = Some (m', p) /\
    AvlMap.read p m' = Returned 0 /\
    AvlMap.size m' = 4 /\
    AvlMap.subscript 5 m' = Some (m', p).
Proof.
  split; [reflexivity|].
  destruct (subscript_absent_key_inserts_default
              (AvlMap.from_list [(2,7); (1,7); (3,7)]) 5 eq_refl)
    as (p & Hsub & _ & _ & _ & _ & _ & Hsize & Hread & _ & Hagain & _).
  exists p. eexists. split; [exact Hsub|].
  split; [exact Hread|]. split; [|exact Hagain].
  apply Hsize. cbn. unfold size_max. lia.
Defined.

(** ** Removal in the set *)

(** [remove_util] of the set never changes what the tree enumerates: on the
    key's node it takes the branch [t->data == x], which returns at once, and
    everywhere else it only rebalances. *)
Lemma set_remove_util_inorder (x : Z) (t : tree Z) (n : Z) :
  inorder (fst (AvlTree.remove_util x t n)) = inorder t.
Proof.
  revert n. induction t as [|l IHl r IHr d h]; intros n; [reflexivity|].
  cbn [AvlTree.remove_util].
  destruct (Z.ltb_spec x d) as [Hlt|Hge].
  - specialize (IHl n). destruct (AvlTree.remove_util x l n) as [l' n'].
    cbn [fst] in *. rewrite inorder_balance. cbn [inorder]. now rewrite IHl.
  - destruct (Z.ltb_spec d x) as [Hlt|Hge'].
    + specialize (IHr n). destruct (AvlTree.remove_util x r n) as [r' n'].
      cbn [fst] in *. rewrite inorder_balance. cbn [inorder]. now rewrite IHr.
    + destruct (Z.eqb_spec d x) as [_|Hne]; [reflexivity|lia].
Qed.

Lemma set_remove_elements (x : Z) (s : AvlTree.t) :
  AvlTree.elements (AvlTree.remove x s) = AvlTree.elements s.
Proof.
  unfold AvlTree.elements, AvlTree.remove.
  pose proof (set_remove_util_inorder x (AvlTree.root s) (AvlTree.sz s)) as H.
  destruct (AvlTree.remove_util x (AvlTree.root s) (AvlTree.sz s)) as [r n].
  exact H.
Qed.

(** C1, on the code.  After the keys 1 to 10 are inserted, [remove(8)] and
    [remove(10)] leave all ten keys in the tree: both are still found, the
    enumeration is still 1 to 10 and [size()] is still 10. *)
Theorem set_remove_leaves_present_keys :
  AvlTree.elements
    (AvlTree.remove 10 (AvlTree.remove 8 (AvlTree.from_list [1;2;3;4;5;6;7;8;9;10])))
  = [1;2;3;4;5;6;7;8;9;10] /\
  AvlTree.search 8
    (AvlTree.remove 10 (AvlTree.remove 8 (AvlTree.from_list [1;2;3;4;5;6;7;8;9;10])))
  = true /\
  AvlTree.search 10
    (AvlTree.remove 10 (AvlTree.remove 8 (AvlTree.from_list [1;2;3;4;5;6;7;8;9;10])))
  = true /\
  AvlTree.size
    (AvlTree.remove 10 (AvlTree.remove 8 (AvlTree.from_list [1;2;3;4;5;6;7;8;9;10])))
  = 10.
Proof. vm_compute. repeat split. Qed.

(** The map's [remove_util], which has no such branch, does delete: the same
    scenario on the map leaves the keys 1 to 7 and 9. *)
Example map_erase_deletes_present_keys :
  AvlMap.keys
    (AvlMap.erase 10 (AvlMap.erase 8
       (AvlMap.from_list [(1,0);(2,0);(3,0);(4,0);(5,0);(6,0);(7,0);(8,0);(9,0);(10,0)])))
  = [1;2;3;4;5;6;7;9].
Proof. reflexivity. Qed.

(** So does the tree on raw pointers. *)
Example raw_remove_deletes_present_keys :
  AvlTreeRaw.elements
    (AvlTreeRaw.remove 10 (AvlTreeRaw.remove 8
       (AvlTreeRaw.from_list [1;2;3;4;5;6;7;8;9;10])))
  = [1;2;3;4;5;6;7;9].
Proof. reflexivity. Qed.

(** ** Removal of an absent key *)

(** Where the search for [x] ends in an empty slot, the map's [remove_util]
    only rebalances on its way back: the in-order sequence stays. *)
Lemma map_remove_util_absent (x : Z) (t : tree AvlMap.entry) :
  slot_get (AvlMap.search_path x t) t = Leaf ->
  inorder (AvlMap.remove_util x t) = inorder t.
Proof.
  induction t as [|l IHl r IHr e h]; intros Hslot; [reflexivity|].
  cbn [AvlMap.search_path AvlMap.remove_util] in *.
  destruct (Z.eqb_spec (AvlMap.key e) x) as [|Hne]; [discriminate|].
  destruct (Z.ltb_spec x (AvlMap.key e)) as [Hlt|Hge].
  - rewrite inorder_balance. cbn [inorder slot_get] in *. now rewrite IHl.
  - destruct (Z.ltb_spec (AvlMap.key e) x) as [Hlt|Hge']; [|lia].
    rewrite inorder_balance. cbn [inorder slot_get] in *. now rewrite IHr.
Qed.

(** C3, on the code.  Removing the absent key 2 from the set {1} leaves the
    enumeration at [1] but takes [size()] from 1 to 0; the map's [erase] does
    the same; on an empty set the counter wraps to [SIZE_MAX]. *)
Theorem remove_absent_key_decrements_size :
  AvlTree.search 2 (AvlTree.from_list [1]) = false /\
  AvlTree.elements (AvlTree.remove 2 (AvlTree.from_list [1])) = [1] /\
  AvlTree.size (AvlTree.from_list [1]) = 1 /\
  AvlTree.size (AvlTree.remove 2 (AvlTree.from_list [1])) = 0 /\
  AvlMap.search 2 (AvlMap.from_list [(1,5)]) = Some false /\
  AvlMap.entries (AvlMap.erase 2 (AvlMap.from_list [(1,5)])) = [(1,5)] /\
  AvlMap.size (AvlMap.from_list [(1,5)]) = 1 /\
  AvlMap.size (AvlMap.erase 2 (AvlMap.from_list [(1,5)])) = 0 /\
  AvlTree.size (AvlTree.remove 1 AvlTree.new) = size_max.
Proof. vm_compute. repeat split. Qed.

(** ** Invariants after the map's [operator[]] *)

(** C4, on the code.  [m[1]; m[2]; m[3];] on an empty map builds the chain
    1 -> 2 -> 3: the keys are in ascending order, but at the root the left
    subtree has height -1 and the right subtree height 1.  The same three
    keys through [insert] give the balanced tree rooted at 2. *)
Theorem subscript_breaks_balance :
  AvlMap.root (AvlMap.touch 3 (AvlMap.touch 2 (AvlMap.touch 1 AvlMap.new))) =
    Node Leaf
         (Node Leaf (Node Leaf Leaf (AvlMap.Entry 3 0) 0) (AvlMap.Entry 2 0) 0)
         (AvlMap.Entry 1 0) 0 /\
  balanced (AvlMap.root (AvlMap.touch 3 (AvlMap.touch 2 (AvlMap.touch 1 AvlMap.new))))
    = false /\
  real_height (left_of
    (AvlMap.root (AvlMap.touch 3 (AvlMap.touch 2 (AvlMap.touch 1 AvlMap.new))))) = -1 /\
  real_height (right_of
    (AvlMap.root (AvlMap.touch 3 (AvlMap.touch 2 (AvlMap.touch 1 AvlMap.new))))) = 1 /\
  AvlMap.bst (AvlMap.touch 3 (AvlMap.touch 2 (AvlMap.touch 1 AvlMap.new))) = true /\
  balanced (AvlMap.root (AvlMap.insert 3 0 (AvlMap.insert 2 0 (AvlMap.insert 1 0 AvlMap.new))))
    = true.
Proof. vm_compute. repeat split. Qed.

(** C8, on the code.  [m[1]; m[2];] on an empty map leaves the root 1 with
    the cached height 0 although its right child 2 has height 0, so the
    field should be 1. *)
Theorem subscript_leaves_stale_heights :
  AvlMap.root (AvlMap.touch 2 (AvlMap.touch 1 AvlMap.new)) =
    Node Leaf (Node Leaf Leaf (AvlMap.Entry 2 0) 0) (AvlMap.Entry 1 0) 0 /\
  heights_ok (AvlMap.root (AvlMap.touch 2 (AvlMap.touch 1 AvlMap.new))) = false /\
  height (AvlMap.root (AvlMap.touch 2 (AvlMap.touch 1 AvlMap.new))) = 0 /\
  height (right_of (AvlMap.root (AvlMap.touch 2 (AvlMap.touch 1 AvlMap.new)))) = 0 /\
  heights_ok (AvlMap.root (AvlMap.insert 2 0 (AvlMap.insert 1 0 AvlMap.new))) = true.
Proof. vm_compute. repeat split. Qed.

(** ** The element count *)

(** C5, on the code.  [clear()] empties the tree and leaves [sz] at 3;
    removing an absent key leaves one node and [sz] at 0; inserting a
    duplicate key into the map leaves one node and [sz] at 2. *)
Theorem size_differs_from_node_count :
  node_count (AvlTree.root (AvlTree.clear (AvlTree.from_list [1;2;3]))) = 0 /\
  AvlTree.size (AvlTree.clear (AvlTree.from_list [1;2;3])) = 3 /\
  node_count (AvlMap.root (AvlMap.clear (AvlMap.from_list [(1,0);(2,0);(3,0)]))) = 0 /\
  AvlMap.size (AvlMap.clear (AvlMap.from_list [(1,0);(2,0);(3,0)])) = 3 /\
  node_count (AvlTree.root (AvlTree.remove 2 (AvlTree.from_list [1]))) = 1 /\
  AvlTree.size (AvlTree.remove 2 (AvlTree.from_list [1])) = 0 /\
  node_count (AvlMap.root (AvlMap.erase 2 (AvlMap.from_list [(1,0)]))) = 1 /\
  AvlMap.size (AvlMap.erase 2 (AvlMap.from_list [(1,0)])) = 0 /\
  node_count (AvlMap.root (AvlMap.insert 1 20 (AvlMap.insert 1 10 AvlMap.new))) = 1 /\
  AvlMap.size (AvlMap.insert 1 20 (AvlMap.insert 1 10 AvlMap.new)) = 2.
Proof. vm_compute. repeat split. Qed.

(** ** Minimum and maximum *)

(** C6, on the code.  After [clear()] the set {1,2,3} holds nothing, yet
    [empty()] is false and [min_element()] and [max_element()] go on to
    dereference the null result of [findMin] and [findMax] instead of
    throwing.  After [remove(2)] the set {1} still holds 1, yet both throw. *)
Theorem min_max_element_emptiness_by_counter :
  AvlTree.elements (AvlTree.clear (AvlTree.from_list [1;2;3])) = [] /\
  AvlTree.empty (AvlTree.clear (AvlTree.from_list [1;2;3])) = false /\
  AvlTree.min_element (AvlTree.clear (AvlTree.from_list [1;2;3])) = NullDeref /\
  AvlTree.max_element (AvlTree.clear (AvlTree.from_list [1;2;3])) = NullDeref /\
  AvlTree.elements (AvlTree.remove 2 (AvlTree.from_list [1])) = [1] /\
  AvlTree.min_element (AvlTree.remove 2 (AvlTree.from_list [1])) = Thrown EmptyContainer /\
  AvlTree.max_element (AvlTree.remove 2 (AvlTree.from_list [1])) = Thrown EmptyContainer.
Proof. vm_compute. repeat split. Qed.

(** The tree on raw pointers, whose [empty()] looks at the root, throws in
    the first scenario and returns the element in the second. *)
Example raw_min_max_element_emptiness_by_root :
  AvlTreeRaw.min_element (AvlTreeRaw.clear (AvlTreeRaw.from_list [1;2;3]))
    = Thrown EmptyContainer /\
  AvlTreeRaw.max_element (AvlTreeRaw.clear (AvlTreeRaw.from_list [1;2;3]))
    = Thrown EmptyContainer /\
  AvlTreeRaw.min_element (AvlTreeRaw.remove 2 (AvlTreeRaw.from_list [1]))
    = Returned 1 /\
  AvlTreeRaw.max_element (AvlTreeRaw.remove 2 (AvlTreeRaw.from_list [1]))
    = Returned 1.
Proof. vm_compute. repeat split. Qed.

(** ** Ascending sequences and the reference operations on them *)

Lemma ascending_cons (x : Z) (ks : list Z) :
  ascending (x :: ks) = true <->
  Forall (fun y => x < y) ks /\ ascending ks = true.
Proof.
  revert x. induction ks as [|y ks IH]; intros x.
  - cbn. intuition.
  - change (ascending (x :: y :: ks)) with ((x <? y) && ascending (y :: ks)).
    rewrite andb_true_iff, Z.ltb_lt. split.
    + intros [Hxy Hasc]. split; [|exact Hasc].
      constructor; [exact Hxy|].
      apply IH in Hasc as [Hall _].
      eapply Forall_impl; [|exact Hall]. cbn. intros z Hz. lia.
    + intros [Hall Hasc]. split; [|exact Hasc]. now inversion Hall.
Qed.

Lemma ascending_app (ks1 ks2 : list Z) (x : Z) :
  ascending (ks1 ++ x :: ks2) = true <->
  ascending ks1 = true /\ ascending ks2 = true /\
  Forall (fun y => y < x) ks1 /\ Forall (fun y => x < y) ks2.
Proof.
  induction ks1 as [|a ks1 IH].
  - cbn [app]. rewrite ascending_cons. intuition.
  - cbn [app]. rewrite !ascending_cons, IH, Forall_app, !Forall_cons_iff.
    split.
    + intros ((Ha1 & Hax & Ha2) & H1 & H2 & Hlt & Hgt). intuition.
    + intros ((Ha1 & H1) & H2 & (Hax & Hlt) & Hgt). intuition.
      eapply Forall_impl; [|exact Hgt]. cbn. intros z Hz. lia.
Qed.

Section SequenceFacts.
Context {A : Type} (key_of : A -> Z).
Implicit Types es : list A.

Lemma assoc_app es1 es2 (k : Z) :
  assoc key_of k (es1 ++ es2) =
  match assoc key_of k es1 with
  | Some e => Some e
  | None => assoc key_of k es2
  end.
Proof.
  unfold assoc. induction es1 as [|a es1 IH]; [reflexivity|].
  cbn. now destruct (key_of a =? k).
Qed.

Lemma assoc_cons es (e : A) (k : Z) :
  assoc key_of k (e :: es) = if key_of e =? k then Some e else assoc key_of k es.
Proof. reflexivity. Qed.

Lemma assoc_none es (k : Z) :
  Forall (fun e => key_of e <> k) es -> assoc key_of k es = None.
Proof.
  unfold assoc. induction 1 as [|a es Ha _ IH]; [reflexivity|].
  cbn. apply Z.eqb_neq in Ha. now rewrite Ha.
Qed.

Lemma add_absent_app_lt es1 es2 (e a : A) :
  key_of a < key_of e ->
  add_absent key_of a (es1 ++ e :: es2) = add_absent key_of a es1 ++ e :: es2.
Proof.
  intros Hlt. induction es1 as [|b es1 IH]; cbn.
  - apply Z.ltb_lt in Hlt. now rewrite Hlt.
  - destruct (key_of a <? key_of b); [reflexivity|].
    destruct (key_of b <? key_of a); [|reflexivity]. now rewrite IH.
Qed.

Lemma add_absent_app_gt es1 es2 (e a : A) :
  Forall (fun b => key_of b < key_of a) es1 -> key_of e < key_of a ->
  add_absent key_of a (es1 ++ e :: es2) = es1 ++ e :: add_absent key_of a es2.
Proof.
  intros Hall Hlt. induction Hall as [|b es1 Hb _ IH]; cbn.
  - destruct (Z.ltb_spec (key_of a) (key_of e)); [lia|].
    apply Z.ltb_lt in Hlt. now rewrite Hlt.
  - destruct (Z.ltb_spec (key_of a) (key_of b)); [lia|].
    apply Z.ltb_lt in Hb. now rewrite Hb, IH.
Qed.

Lemma add_absent_app_eq es1 es2 (e a : A) :
  Forall (fun b => key_of b < key_of a) es1 -> key_of e = key_of a ->
  add_absent key_of a (es1 ++ e :: es2) = es1 ++ e :: es2.
Proof.
  intros Hall Heq. induction Hall as [|b es1 Hb _ IH]; cbn.
  - rewrite Heq, Z.ltb_irrefl. reflexivity.
  - destruct (Z.ltb_spec (key_of a) (key_of b)); [lia|].
    apply Z.ltb_lt in Hb. now rewrite Hb, IH.
Qed.

(** Adding a key a second time changes nothing, whatever comes with it. *)
Lemma add_absent_twice es (a1 a2 : A) :
  key_of a1 = key_of a2 ->
  add_absent key_of a2 (add_absent key_of a1 es) = add_absent key_of a1 es.
Proof.
  intros Hk. induction es as [|b es IH]; cbn.
  - now rewrite <- Hk, Z.ltb_irrefl.
  - destruct (key_of a1 <? key_of b) eqn:H1.
    + cbn. now rewrite <- Hk, Z.ltb_irrefl.
    + destruct (key_of b <? key_of a1) eqn:H2; cbn; rewrite <- Hk, H1, H2;
        [now rewrite IH|reflexivity].
Qed.

Lemma add_absent_Forall (P : Z -> Prop) es (a : A) :
  P (key_of a) -> Forall P (map key_of es) ->
  Forall P (map key_of (add_absent key_of a es)).
Proof.
  intros Hk. induction es as [|b es IH]; cbn; intros Hall.
  - now constructor.
  - destruct (key_of a <? key_of b); [now constructor|].
    destruct (key_of b <? key_of a); [|exact Hall].
    cbn. inversion Hall; subst. constructor; auto.
Qed.

Lemma add_absent_ascending es (a : A) :
  ascending (map key_of es) = true ->
  ascending (map key_of (add_absent key_of a es)) = true.
Proof.
  induction es as [|b es IH]; [reflexivity|].
  cbn [map add_absent]. intros Hasc.
  destruct (Z.ltb_spec (key_of a) (key_of b)) as [Hlt|Hge].
  - change ((key_of a <? key_of b) && ascending (map key_of (b :: es)) = true).
    apply andb_true_iff. split; [now apply Z.ltb_lt|exact Hasc].
  - destruct (Z.ltb_spec (key_of b) (key_of a)) as [Hlt|Hge']; [|exact Hasc].
    cbn [map]. apply ascending_cons in Hasc as [Hall Hasc].
    apply ascending_cons. split; [|now apply IH].
    now apply add_absent_Forall.
Qed.

(** A key that was absent is associated to the element given with it. *)
Lemma assoc_add_absent_new es (a : A) :
  assoc key_of (key_of a) es = None ->
  assoc key_of (key_of a) (add_absent key_of a es) = Some a.
Proof.
  unfold assoc. induction es as [|b es IH]; cbn.
  - now rewrite Z.eqb_refl.
  - destruct (Z.eqb_spec (key_of b) (key_of a)) as [Heq|Hne]; [discriminate|].
    intros Hnone.
    destruct (Z.ltb_spec (key_of a) (key_of b)); cbn.
    + now rewrite Z.eqb_refl.
    + destruct (Z.ltb_spec (key_of b) (key_of a)); [|lia]. cbn.
      apply Z.eqb_neq in Hne. rewrite Hne. now apply IH.
Qed.

(** A key that was present keeps its element: the sequence is unchanged. *)
Lemma add_absent_present es (a e : A) :
  ascending (map key_of es) = true ->
  assoc key_of (key_of a) es = Some e -> add_absent key_of a es = es.
Proof.
  unfold assoc. induction es as [|b es IH]; [discriminate|].
  cbn [map find add_absent]. intros Hasc Hfind.
  apply ascending_cons in Hasc as [Hall Hasc].
  destruct (Z.eqb_spec (key_of b) (key_of a)) as [Heq|Hne].
  - rewrite Heq, Z.ltb_irrefl. reflexivity.
  - destruct (Z.ltb_spec (key_of a) (key_of b)) as [Hlt|Hge].
    + apply find_some in Hfind as [Hin Hk]. apply Z.eqb_eq in Hk.
      rewrite Forall_map in Hall. rewrite Forall_forall in Hall.
      apply Hall in Hin. lia.
    + destruct (Z.ltb_spec (key_of b) (key_of a)); [|lia]. now rewrite IH.
Qed.
End SequenceFacts.

(** ** Insertion into the map *)

Lemma bst_node (l r : tree AvlMap.entry) (e : AvlMap.entry) (h : Z) :
  ascending (map AvlMap.key (inorder (Node l r e h))) = true <->
  ascending (map AvlMap.key (inorder l)) = true /\
  ascending (map AvlMap.key (inorder r)) = true /\
  Forall (fun a => AvlMap.key a < AvlMap.key e) (inorder l) /\
  Forall (fun a => AvlMap.key e < AvlMap.key a) (inorder r).
Proof.
  cbn [inorder]. rewrite map_app. cbn [map].
  rewrite ascending_app, !Forall_map. reflexivity.
Qed.

(** On a search tree [insert_util] adds the key at its place of the in-order
    sequence when no entry has it, and leaves the sequence as it is when one
    does: the value passed is not written. *)
Lemma map_insert_util_inorder (k v : Z) (t : tree AvlMap.entry) :
  ascending (map AvlMap.key (inorder t)) = true ->
  inorder (AvlMap.insert_util k v t) = add_absent AvlMap.key (AvlMap.Entry k v) (inorder t).
Proof.
  induction t as [|l IHl r IHr e h]; intros Hbst; [reflexivity|].
  apply bst_node in Hbst as (Hl & Hr & Hlt & Hgt).
  cbn [AvlMap.insert_util]. 
  destruct (Z.ltb_spec k (AvlMap.key e)) as [H1|H1].
  - rewrite inorder_balance. cbn [inorder].
    rewrite (IHl Hl). symmetry. now apply add_absent_app_lt.
  - destruct (Z.ltb_spec (AvlMap.key e) k) as [H2|H2].
    + rewrite inorder_balance. cbn [inorder].
      rewrite (IHr Hr). symmetry. apply add_absent_app_gt; [|exact H2].
      eapply Forall_impl; [|exact Hlt]. cbn. intros a Ha. lia.
    + rewrite inorder_balance. cbn [inorder].
      symmetry. apply add_absent_app_eq; [|cbn; lia].
      eapply Forall_impl; [|exact Hlt]. cbn. intros a Ha. lia.
Qed.

Lemma map_insert_bst (k v : Z) (m : AvlMap.t) :
  AvlMap.bst m = true -> AvlMap.bst (AvlMap.insert k v m) = true.
Proof.
  unfold AvlMap.bst, AvlMap.keys, AvlMap.insert. cbn [AvlMap.root].
  intros Hbst. rewrite (map_insert_util_inorder k v _ Hbst).
  now apply add_absent_ascending.
Qed.

(** On a search tree the slot that [search] returns holds the entry that the
    in-order sequence associates to the key, and is empty when there is none. *)
Lemma search_path_assoc (k : Z) (t : tree AvlMap.entry) :
  ascending (map AvlMap.key (inorder t)) = true ->
  match slot_get (AvlMap.search_path k t) t with
  | Leaf => None
  | Node _ _ e _ => Some e
  end = assoc AvlMap.key k (inorder t).
Proof.
  induction t as [|l IHl r IHr e h]; intros Hbst; [reflexivity|].
  apply bst_node in Hbst as (Hl & Hr & Hlt & Hgt).
  cbn [AvlMap.search_path inorder]. rewrite assoc_app.
  destruct (Z.eqb_spec (AvlMap.key e) k) as [Heq|Hne].
  - cbn [slot_get]. rewrite (assoc_none AvlMap.key (inorder l)).
    + unfold assoc. cbn. apply Z.eqb_eq in Heq. now rewrite Heq.
    + eapply Forall_impl; [|exact Hlt]. cbn. intros a Ha. lia.
  - destruct (Z.ltb_spec k (AvlMap.key e)) as [H1|H1]; cbn [slot_get].
    + rewrite (IHl Hl). destruct (assoc AvlMap.key k (inorder l)); [reflexivity|].
      symmetry. apply assoc_none. constructor; [exact Hne|].
      eapply Forall_impl; [|exact Hgt]. cbn. intros a Ha. lia.
    + rewrite (IHr Hr). rewrite (assoc_none AvlMap.key (inorder l)).
      * rewrite assoc_cons. apply Z.eqb_neq in Hne. now rewrite Hne.
      * eapply Forall_impl; [|exact Hlt]. cbn. intros a Ha. lia.
Qed.

(** The non-const [at(k)], unlike the const overload, always comes back:
    with the value in the slot, or with the exception. *)
Lemma at_result (k : Z) (m : AvlMap.t) :
  AvlMap.at_ k m =
  Some match slot_get (AvlMap.search_path k (AvlMap.root m)) (AvlMap.root m) with
       | Leaf => Thrown NotFound
       | Node _ _ e _ => Returned (AvlMap.value e)
       end.
Proof.
  unfold AvlMap.at_, AvlMap.read. rewrite search_slot_path.
  now destruct (slot_get _ _).
Qed.

Lemma at_assoc (k : Z) (m : AvlMap.t) :
  AvlMap.bst m = true ->
  AvlMap.at_ k m =
  Some match assoc AvlMap.key k (inorder (AvlMap.root m)) with
       | None => Thrown NotFound
       | Some e => Returned (AvlMap.value e)
       end.
Proof.
  intros Hbst. rewrite at_result, <- (search_path_assoc k _ Hbst).
  now destruct (slot_get _ _).
Qed.

(** C2, as the code has it.  In a map whose in-order keys ascend,
    [insert(k, v1)] followed by [insert(k, v2)] leaves [k] with the value it
    had after the first call: the second call changes neither the sequence of
    entries nor what [at(k)] returns.  That value is [v1] when [k] was absent
    before the first call, and the value [k] already had otherwise.  The keys
    still ascend afterwards. *)
Theorem insert_existing_key_keeps_value (m : AvlMap.t) (k v1 v2 : Z) :
  AvlMap.bst m = true ->
  AvlMap.entries (AvlMap.insert k v2 (AvlMap.insert k v1 m)) =
    AvlMap.entries (AvlMap.insert k v1 m) /\
  AvlMap.at_ k (AvlMap.insert k v2 (AvlMap.insert k v1 m)) =
    AvlMap.at_ k (AvlMap.insert k v1 m) /\
  (AvlMap.search k m = Some false ->
   AvlMap.at_ k (AvlMap.insert k v2 (AvlMap.insert k v1 m)) = Some (Returned v1)) /\
  (forall v : Z,
      AvlMap.at_ k m = Some (Returned v) ->
      AvlMap.at_ k (AvlMap.insert k v2 (AvlMap.insert k v1 m)) = Some (Returned v)) /\
  AvlMap.bst (AvlMap.insert k v2 (AvlMap.insert k v1 m)) = true.
Proof.
  intros Hbst.
  pose proof (map_insert_bst k v1 m Hbst) as Hbst1.
  pose proof (map_insert_bst k v2 _ Hbst1) as Hbst2.
  assert (Hin1 : inorder (AvlMap.root (AvlMap.insert k v1 m)) =
                 add_absent AvlMap.key (AvlMap.Entry k v1) (inorder (AvlMap.root m)))
    by (apply map_insert_util_inorder; exact Hbst).
  assert (Hin2 : inorder (AvlMap.root (AvlMap.insert k v2 (AvlMap.insert k v1 m))) =
                 inorder (AvlMap.root (AvlMap.insert k v1 m))).
  { change (AvlMap.root (AvlMap.insert k v2 (AvlMap.insert k v1 m)))
      with (AvlMap.insert_util k v2 (AvlMap.root (AvlMap.insert k v1 m))).
    rewrite (map_insert_util_inorder k v2 _ Hbst1), Hin1.
    now apply add_absent_twice. }
  assert (Hat : AvlMap.at_ k (AvlMap.insert k v2 (AvlMap.insert k v1 m)) =
                AvlMap.at_ k (AvlMap.insert k v1 m))
    by (rewrite (at_assoc k _ Hbst2), (at_assoc k _ Hbst1), Hin2; reflexivity).
  split; [unfold AvlMap.entries; now rewrite Hin2|].
  split; [exact Hat|].
  split; [|split; [|exact Hbst2]].
  - intros Habs. rewrite Hat, (at_assoc k _ Hbst1), Hin1.
    unfold AvlMap.search in Habs. rewrite search_slot_path in Habs.
    cbn [option_map] in Habs.
    pose proof (search_path_assoc k _ Hbst) as Hlook.
    destruct (slot_get _ _); [|discriminate].
    change k with (AvlMap.key (AvlMap.Entry k v1)) at 1.
    now rewrite (assoc_add_absent_new AvlMap.key _ (AvlMap.Entry k v1) (eq_sym Hlook)).
  - intros v Hv. rewrite Hat, (at_assoc k _ Hbst1), Hin1.
    rewrite (at_assoc k _ Hbst) in Hv.
    destruct (assoc AvlMap.key k (inorder (AvlMap.root m))) as [e|] eqn:Hlook;
      [|discriminate].
    rewrite (add_absent_present AvlMap.key _ (AvlMap.Entry k v1) e Hbst Hlook), Hlook.
    exact Hv.
Qed.

(** C2 as stated fails on the empty map with [k = 1], [v1 = 10], [v2 = 20]:
    [at(1)] returns 10, not 20, and [size()] goes from 1 to 2. *)
Lemma insert_existing_key_counterexample :
  AvlMap.at_ 1 (AvlMap.insert 1 20 (AvlMap.insert 1 10 AvlMap.new)) = Some (Returned 10) /\
  AvlMap.at_ 1 (AvlMap.insert 1 20 (AvlMap.insert 1 10 AvlMap.new)) <> Some (Returned 20) /\
  AvlMap.size (AvlMap.insert 1 10 AvlMap.new) = 1 /\
  AvlMap.size (AvlMap.insert 1 20 (AvlMap.insert 1 10 AvlMap.new)) = 2.
Proof. vm_compute. repeat split. discriminate. Qed.

(** The amended C2 on the map built from 2, 1, 3, with the absent key 5. *)
Lemma insert_existing_key_keeps_value_witness :
  AvlMap.bst (AvlMap.from_list [(2,7); (1,7); (3,7)]) = true /\
  AvlMap.at_ 5 (AvlMap.insert 5 20 (AvlMap.insert 5 10
                  (AvlMap.from_list [(2,7); (1,7); (3,7)]))) = Some (Returned 10).
Proof.
  split; [reflexivity|].
  destruct (insert_existing_key_keeps_value
              (AvlMap.from_list [(2,7); (1,7); (3,7)]) 5 10 20 eq_refl)
    as (_ & _ & Hnew & _).
  apply Hnew. reflexivity.
Defined.

(** * Invariants along the public operations *)

(** ** Cached heights never go negative *)

Section NonnegFacts.
Context {A : Type}.
Implicit Types t l r s : tree A.

Ltac nonneg_rotation :=
  rewrite ?heights_nonneg_node in *;
  repeat match goal with
         | H : _ /\ _ |- _ => destruct H
         end;
  repeat match goal with
         | H : heights_nonneg ?s = true |- _ =>
             lazymatch goal with
             | _ : -1 <= height s |- _ => fail
             | _ => pose proof (height_lower_bound s H)
             end
         end;
  cbn [height] in *;
  repeat split; try assumption; try lia.

Lemma heights_nonneg_rotateWithLeftChild t :
  heights_nonneg t = true -> heights_nonneg (rotateWithLeftChild t) = true.
Proof.
  destruct t as [|[|ll lr ld lh] r d h]; trivial.
  cbn [rotateWithLeftChild]. intros H. nonneg_rotation.
Qed.

Lemma heights_nonneg_rotateWithRightChild t :
  heights_nonneg t = true -> heights_nonneg (rotateWithRightChild t) = true.
Proof.
  destruct t as [|l [|rl rr rd rh] d h]; trivial.
  cbn [rotateWithRightChild]. intros H. nonneg_rotation.
Qed.

Lemma heights_nonneg_balance t :
  heights_nonneg t = true -> heights_nonneg (balance t) = true.
Proof.
  intros H. destruct t as [|l r d h]; trivial.
  assert (Hr : heights_nonneg (rebalance (Node l r d h)) = true).
  { unfold rebalance.
    repeat match goal with |- context [if ?c then _ else _] => destruct c end;
      trivial.
    - now apply heights_nonneg_rotateWithLeftChild.
    - unfold doubleWithLeftChild. apply heights_nonneg_rotateWithLeftChild.
      apply heights_nonneg_node in H as (H0 & Hl & Hr).
      apply heights_nonneg_node. auto using heights_nonneg_rotateWithRightChild.
    - now apply heights_nonneg_rotateWithRightChild.
    - unfold doubleWithRightChild. apply heights_nonneg_rotateWithRightChild.
      apply heights_nonneg_node in H as (H0 & Hl & Hr).
      apply heights_nonneg_node. auto using heights_nonneg_rotateWithLeftChild. }
  unfold balance. destruct (rebalance (Node l r d h)) as [|l' r' d' h']; trivial.
  cbn [update_height]. nonneg_rotation.
Qed.

(** [balance] applied to a node whose children are fine: the height that the
    node carried before does not matter, [balance] overwrites it. *)
Lemma heights_nonneg_balance_node l r d h :
  heights_nonneg l = true -> heights_nonneg r = true ->
  heights_nonneg (balance (Node l r d h)) = true.
Proof.
  intros Hl Hr.
  assert (E : balance (Node l r d h) = balance (Node l r d 0)).
  { unfold balance, rebalance. cbn [left_of right_of].
    repeat match goal with |- context [if ?c then _ else _] => destruct c end;
      destruct l as [|? [|? ? ? ?] ? ?], r as [|[|? ? ? ?] ? ? ?]; reflexivity. }
  rewrite E. apply heights_nonneg_balance. apply heights_nonneg_node.
  repeat split; trivial; lia.
Qed.

Lemma heights_nonneg_slot_get (p : slot) t :
  heights_nonneg t = true -> heights_nonneg (slot_get p t) = true.
Proof.
  revert t. induction p as [|[|] p IH]; intros t Ht; [exact Ht| |];
    destruct t as [|l r d h]; trivial;
    apply heights_nonneg_node in Ht as (_ & Hl & Hr); cbn [slot_get]; auto.
Qed.

Lemma heights_nonneg_slot_set (p : slot) s t :
  heights_nonneg t = true -> heights_nonneg s = true ->
  heights_nonneg (slot_set p s t) = true.
Proof.
  revert t. induction p as [|[|] p IH]; intros t Ht Hs; [exact Hs| |];
    destruct t as [|l r d h]; trivial;
    apply heights_nonneg_node in Ht as (H0 & Hl & Hr); cbn [slot_set];
    apply heights_nonneg_node; auto.
Qed.
End NonnegFacts.

(** ** The AVL invariant under [balance] *)

Section AvlFacts.
Context {A : Type}.
Implicit Types t l r : tree A.

Lemma avl_inv_height t : avl_inv t -> -1 <= height t.
Proof.
  induction t as [|l IHl r IHr d h]; cbn [avl_inv height]; [lia|].
  intros (Hl & Hr & Hh & _). specialize (IHl Hl). lia.
Qed.

(** Under the invariant the cached field is the height of the subtree. *)
Lemma avl_inv_real_height t : avl_inv t -> height t = real_height t.
Proof.
  induction t as [|l IHl r IHr d h]; cbn [avl_inv height real_height]; [reflexivity|].
  intros (Hl & Hr & Hh & _). rewrite <- (IHl Hl), <- (IHr Hr). exact Hh.
Qed.

Lemma avl_inv_iff t : avl_inv t <-> avl t = true.
Proof.
  unfold avl. rewrite andb_true_iff.
  induction t as [|l IHl r IHr d h]; cbn [avl_inv heights_ok balanced]; [tauto|].
  rewrite !andb_true_iff, Z.eqb_eq, Z.leb_le, IHl, IHr. split.
  - intros ((Hl1 & Hl2) & (Hr1 & Hr2) & Hh & Hb).
    rewrite <- !avl_inv_real_height by (apply IHl || apply IHr; tauto). tauto.
  - intros (((Hh & Hl1) & Hr1) & (Hb & Hl2) & Hr2).
    rewrite <- !avl_inv_real_height in Hb by (apply IHl || apply IHr; tauto). tauto.
Qed.

Lemma avl_inv_nonneg t : avl_inv t -> heights_nonneg t = true.
Proof.
  induction t as [|l IHl r IHr d h]; [reflexivity|].
  intros (Hl & Hr & Hh & Hb). apply heights_nonneg_node.
  pose proof (avl_inv_height l Hl). repeat split; auto. lia.
Qed.

(** The heart of the algorithm.  Two AVL subtrees whose heights differ by at
    most two are joined by [balance] into an AVL tree; its height is the
    larger of the two or one more, and when the two differ by at most one no
    rotation happens. *)
Lemma balance_avl l r d h :
  avl_inv l -> avl_inv r -> Z.abs (height l - height r) <= 2 ->
  avl_inv (balance (Node l r d h)) /\
  Z.max (height l) (height r) <= height (balance (Node l r d h))
    <= Z.max (height l) (height r) + 1 /\
  (Z.abs (height l - height r) <= 1 ->
   balance (Node l r d h) = Node l r d (Z.max (height l) (height r) + 1)).
Proof.
  intros Hl Hr Hd.
  pose proof (avl_inv_height l Hl) as Bl. pose proof (avl_inv_height r Hr) as Br.
  unfold balance, rebalance, ALLOWED_IMBALANCE. cbn [left_of right_of].
  rewrite !Z.gtb_ltb, !Z.geb_leb.
  destruct (Z.ltb_spec 1 (height l - height r)) as [H1|H1].
  - destruct l as [|ll lr ld lh]; cbn [height] in *; [lia|].
    cbn [left_of right_of]. destruct Hl as (Hll & Hlr & Hlh & Hlb).
    pose proof (avl_inv_height ll Hll). pose proof (avl_inv_height lr Hlr).
    destruct (Z.leb_spec (height lr) (height ll)) as [H2|H2].
    + cbn [rotateWithLeftChild update_height avl_inv height].
      repeat split; trivial; lia.
    + destruct lr as [|lrl lrr lrd lrh]; cbn [height] in *; [lia|].
      destruct Hlr as (Hlrl & Hlrr & Hlrh & Hlrb).
      pose proof (avl_inv_height lrl Hlrl). pose proof (avl_inv_height lrr Hlrr).
      cbn [doubleWithLeftChild rotateWithRightChild rotateWithLeftChild
           update_height avl_inv height].
      repeat split; trivial; lia.
  - destruct (Z.ltb_spec 1 (height r - height l)) as [H3|H3].
    + destruct r as [|rl rr rd rh]; cbn [height] in *; [lia|].
      cbn [left_of right_of]. destruct Hr as (Hrl & Hrr & Hrh & Hrb).
      pose proof (avl_inv_height rl Hrl). pose proof (avl_inv_height rr Hrr).
      destruct (Z.leb_spec (height rl) (height rr)) as [H2|H2].
      * cbn [rotateWithRightChild update_height avl_inv height].
        repeat split; trivial; lia.
      * destruct rl as [|rll rlr rld rlh]; cbn [height] in *; [lia|].
        destruct Hrl as (Hrll & Hrlr & Hrlh & Hrlb).
        pose proof (avl_inv_height rll Hrll). pose proof (avl_inv_height rlr Hrlr).
        cbn [doubleWithRightChild rotateWithLeftChild rotateWithRightChild
             update_height avl_inv height].
        repeat split; trivial; lia.
    + cbn [update_height avl_inv height]. repeat split; trivial; lia.
Qed.

(** On a tree that satisfies the invariant [balance] changes nothing. *)
Lemma balance_avl_fix t : avl_inv t -> balance t = t.
Proof.
  destruct t as [|l r d h]; [reflexivity|].
  intros (Hl & Hr & Hh & Hb).
  destruct (balance_avl l r d h Hl Hr) as (_ & _ & E); [lia|].
  rewrite (E Hb). now rewrite Hh.
Qed.

Lemma findMin_node l r d h :
  exists ml mr md mh, findMin (Node l r d h) = Node ml mr md mh.
Proof.
  revert r d h. induction l as [|ll IHll lr _ ld lh]; intros r d h.
  - cbn. eauto.
  - cbn [findMin]. apply IHll.
Qed.

(** The leftmost node carries the first element of the traversal. *)
Lemma findMin_inorder l r d h :
  exists ml mr md mh rest,
    findMin (Node l r d h) = Node ml mr md mh /\
    inorder (Node l r d h) = md :: rest.
Proof.
  revert r d h. induction l as [|ll IHll lr _ ld lh]; intros r d h.
  - cbn. eauto 10.
  - destruct (IHll lr ld lh) as (ml & mr & md & mh & rest & E1 & E2).
    exists ml, mr, md, mh, (rest ++ d :: inorder r). split.
    + cbn [findMin]. exact E1.
    + change (inorder (Node (Node ll lr ld lh) r d h))
        with (inorder (Node ll lr ld lh) ++ d :: inorder r).
      now rewrite E2.
Qed.
End AvlFacts.

(** ** Removing a key from an ascending sequence *)

Lemma filter_neq_all (x : Z) (ks : list Z) :
  Forall (fun k => k <> x) ks -> filter (fun k => negb (k =? x)) ks = ks.
Proof.
  induction 1 as [|k ks Hk _ IH]; [reflexivity|].
  cbn. apply Z.eqb_neq in Hk. now rewrite Hk, IH.
Qed.

Lemma ascending_filter (f : Z -> bool) (ks : list Z) :
  ascending ks = true -> ascending (filter f ks) = true.
Proof.
  induction ks as [|k ks IH]; [reflexivity|].
  intros Hasc. apply ascending_cons in Hasc as [Hall Hasc].
  cbn [filter]. destruct (f k); [|now apply IH].
  apply ascending_cons. split; [|now apply IH].
  rewrite Forall_forall in *. intros y Hy. apply filter_In in Hy as [Hy _]. auto.
Qed.

(** ** The map: [insert] and [erase] *)

Lemma map_insert_util_avl (k v : Z) (t : tree AvlMap.entry) :
  avl_inv t ->
  avl_inv (AvlMap.insert_util k v t) /\
  height t <= height (AvlMap.insert_util k v t) <= height t + 1.
Proof.
  induction t as [|l IHl r IHr e h]; intros Havl.
  - cbn. repeat split; lia.
  - pose proof Havl as (Hl & Hr & Hh & Hb).
    cbn [AvlMap.insert_util].
    destruct (k <? AvlMap.key e).
    + destruct (IHl Hl) as (Hl' & Hb').
      destruct (balance_avl (AvlMap.insert_util k v l) r e h Hl' Hr) as (Ha & Hrange & Hfix);
        [lia|].
      split; [exact Ha|]. cbn [height].
      destruct (Z.le_gt_cases (Z.abs (height (AvlMap.insert_util k v l) - height r)) 1)
        as [Hc|Hc]; [rewrite (Hfix Hc); cbn [height]|]; lia.
    + destruct (AvlMap.key e <? k).
      * destruct (IHr Hr) as (Hr' & Hb').
        destruct (balance_avl l (AvlMap.insert_util k v r) e h Hl Hr') as (Ha & Hrange & Hfix);
          [lia|].
        split; [exact Ha|]. cbn [height].
        destruct (Z.le_gt_cases (Z.abs (height l - height (AvlMap.insert_util k v r))) 1)
          as [Hc|Hc]; [rewrite (Hfix Hc); cbn [height]|]; lia.
      * rewrite (balance_avl_fix _ Havl). split; [exact Havl|lia].
Qed.

Lemma map_remove_util_avl (x : Z) (t : tree AvlMap.entry) :
  avl_inv t ->
  avl_inv (AvlMap.remove_util x t) /\
  height t - 1 <= height (AvlMap.remove_util x t) <= height t.
Proof.
  revert x. induction t as [|l IHl r IHr e h]; intros x Havl.
  - cbn. split; [exact I|lia].
  - pose proof Havl as (Hl & Hr & Hh & Hb).
    pose proof (avl_inv_height l Hl) as Bl. pose proof (avl_inv_height r Hr) as Br.
    assert (Hright : forall y e',
               avl_inv (balance (Node l (AvlMap.remove_util y r) e' h)) /\
               h - 1 <= height (balance (Node l (AvlMap.remove_util y r) e' h)) <= h).
    { intros y e'. destruct (IHr y Hr) as (Hr' & Hb').
      destruct (balance_avl l (AvlMap.remove_util y r) e' h Hl Hr') as (Ha & Hrange & Hfix);
        [lia|].
      split; [exact Ha|].
      destruct (Z.le_gt_cases (Z.abs (height l - height (AvlMap.remove_util y r))) 1)
        as [Hc|Hc]; [rewrite (Hfix Hc); cbn [height]|]; lia. }
    cbn [AvlMap.remove_util height].
    destruct (x <? AvlMap.key e).
    + destruct (IHl x Hl) as (Hl' & Hb').
      destruct (balance_avl (AvlMap.remove_util x l) r e h Hl' Hr) as (Ha & Hrange & Hfix);
        [lia|].
      split; [exact Ha|].
      destruct (Z.le_gt_cases (Z.abs (height (AvlMap.remove_util x l) - height r)) 1)
        as [Hc|Hc]; [rewrite (Hfix Hc); cbn [height]|]; lia.
    + destruct (AvlMap.key e <? x); [apply Hright|].
      destruct l as [|ll lr le lh]; cbn [is_null negb andb].
      * rewrite (balance_avl_fix _ Hr). cbn [height] in *. split; [exact Hr|lia].
      * destruct r as [|rl rr re rh]; cbn [is_null negb andb].
        -- rewrite (balance_avl_fix _ Hl). cbn [height] in *. split; [exact Hl|lia].
        -- destruct (findMin_node rl rr re rh) as (ml & mr & md & mh & ->).
           apply Hright.
Qed.

Lemma map_insert_util_nonneg (k v : Z) (t : tree AvlMap.entry) :
  heights_nonneg t = true -> heights_nonneg (AvlMap.insert_util k v t) = true.
Proof.
  induction t as [|l IHl r IHr e h]; intros Hn; [reflexivity|].
  pose proof Hn as Hn'. apply heights_nonneg_node in Hn' as (H0 & Hl & Hr).
  cbn [AvlMap.insert_util].
  destruct (k <? AvlMap.key e); [apply heights_nonneg_balance_node; auto|].
  destruct (AvlMap.key e <? k); [apply heights_nonneg_balance_node; auto|].
  now apply heights_nonneg_balance.
Qed.

Lemma map_remove_util_nonneg (x : Z) (t : tree AvlMap.entry) :
  heights_nonneg t = true -> heights_nonneg (AvlMap.remove_util x t) = true.
Proof.
  revert x. induction t as [|l IHl r IHr e h]; intros x Hn; [reflexivity|].
  pose proof Hn as Hn'. apply heights_nonneg_node in Hn' as (H0 & Hl & Hr).
  cbn [AvlMap.remove_util].
  destruct (x <? AvlMap.key e); [apply heights_nonneg_balance_node; auto|].
  destruct (AvlMap.key e <? x); [apply heights_nonneg_balance_node; auto|].
  destruct (negb (is_null l) && negb (is_null r)).
  - destruct (findMin r); [exact Hn|]. apply heights_nonneg_balance_node; auto.
  - destruct (negb (is_null l)); now apply heights_nonneg_balance.
Qed.

(** On a search tree [remove_util] takes the key, and nothing else, out of
    the in-order sequence of keys. *)
Lemma map_remove_util_keys (x : Z) (t : tree AvlMap.entry) :
  ascending (map AvlMap.key (inorder t)) = true ->
  map AvlMap.key (inorder (AvlMap.remove_util x t)) =
  filter (fun k => negb (k =? x)) (map AvlMap.key (inorder t)).
Proof.
  revert x. induction t as [|l IHl r IHr e h]; intros x Hbst; [reflexivity|].
  pose proof Hbst as Hbst'. apply bst_node in Hbst' as (Hl & Hr & Hlt & Hgt).
  cbn [inorder]. rewrite map_app, filter_app. cbn [map filter].
  cbn [AvlMap.remove_util].
  destruct (Z.ltb_spec x (AvlMap.key e)) as [H1|H1].
  - rewrite inorder_balance. cbn [inorder]. rewrite map_app. cbn [map].
    rewrite (IHl x Hl).
    destruct (Z.eqb_spec (AvlMap.key e) x) as [|_]; [lia|]. cbn [negb].
    rewrite (filter_neq_all x (map AvlMap.key (inorder r))); [reflexivity|].
    rewrite Forall_map. eapply Forall_impl; [|exact Hgt]. cbn. intros a Ha. lia.
  - destruct (Z.ltb_spec (AvlMap.key e) x) as [H2|H2].
    + rewrite inorder_balance. cbn [inorder]. rewrite map_app. cbn [map].
      rewrite (IHr x Hr).
      destruct (Z.eqb_spec (AvlMap.key e) x) as [|_]; [lia|]. cbn [negb].
      rewrite (filter_neq_all x (map AvlMap.key (inorder l))); [reflexivity|].
      rewrite Forall_map. eapply Forall_impl; [|exact Hlt]. cbn. intros a Ha. lia.
    + assert (Hx : AvlMap.key e = x) by lia.
      apply Z.eqb_eq in Hx as Hx'. rewrite Hx'. cbn [negb].
      rewrite (filter_neq_all x (map AvlMap.key (inorder l)))
        by (rewrite Forall_map; eapply Forall_impl; [|exact Hlt]; cbn; intros a Ha; lia).
      rewrite (filter_neq_all x (map AvlMap.key (inorder r)))
        by (rewrite Forall_map; eapply Forall_impl; [|exact Hgt]; cbn; intros a Ha; lia).
      destruct l as [|ll lr le lh]; cbn [is_null negb andb].
      * now rewrite inorder_balance.
      * destruct r as [|rl rr re rh]; cbn [is_null negb andb].
        -- rewrite inorder_balance. cbn [inorder map]. now rewrite app_nil_r.
        -- destruct (findMin_inorder rl rr re rh)
             as (ml & mr & md & mh & rest & -> & Erest).
           rewrite inorder_balance. cbn [inorder]. rewrite map_app. cbn [map AvlMap.key].
           rewrite (IHr (AvlMap.key md) Hr), Erest. cbn [map filter].
           rewrite Z.eqb_refl. cbn [negb].
           rewrite Erest in Hr. cbn [map] in Hr.
           apply ascending_cons in Hr as [Hrest _].
           rewrite filter_neq_all
             by (eapply Forall_impl; [|exact Hrest]; cbn; intros a Ha; lia).
           change (inorder rl ++ re :: inorder rr) with (inorder (Node rl rr re rh)).
           now rewrite Erest.
Qed.

(** ** The map: [operator[]] and assignment through it *)

Lemma subscript_result (k : Z) (m : AvlMap.t) :
  AvlMap.subscript k m =
  Some (if is_null (slot_get (AvlMap.search_path k (AvlMap.root m)) (AvlMap.root m))
        then AvlMap.mk
               (slot_set (AvlMap.search_path k (AvlMap.root m))
                         (Node Leaf Leaf (AvlMap.Entry k AvlMap.default_value) 0)
                         (AvlMap.root m))
               (incr (AvlMap.sz m))
        else m,
        AvlMap.search_path k (AvlMap.root m)).
Proof.
  unfold AvlMap.subscript. rewrite search_slot_path.
  destruct (slot_get _ _) eqn:E; reflexivity.
Qed.

(** On a search tree the empty slot where the search for [k] ends is the
    place of [k] in the in-order sequence. *)
Lemma map_slot_fill_inorder (k v : Z) (t : tree AvlMap.entry) :
  ascending (map AvlMap.key (inorder t)) = true ->
  slot_get (AvlMap.search_path k t) t = Leaf ->
  inorder (slot_set (AvlMap.search_path k t) (Node Leaf Leaf (AvlMap.Entry k v) 0) t) =
  add_absent AvlMap.key (AvlMap.Entry k v) (inorder t).
Proof.
  induction t as [|l IHl r IHr e h]; intros Hbst Hslot; [reflexivity|].
  apply bst_node in Hbst as (Hl & Hr & Hlt & Hgt).
  cbn [AvlMap.search_path] in *.
  destruct (Z.eqb_spec (AvlMap.key e) k) as [Heq|Hne]; [discriminate|].
  destruct (Z.ltb_spec k (AvlMap.key e)) as [H1|H1];
    cbn [slot_get slot_set inorder] in *.
  - rewrite (IHl Hl Hslot). symmetry. now apply add_absent_app_lt.
  - rewrite (IHr Hr Hslot). symmetry. apply add_absent_app_gt; [|cbn; lia].
    eapply Forall_impl; [|exact Hlt]. cbn. intros a Ha. lia.
Qed.

Lemma map_touch_bst (k : Z) (m : AvlMap.t) :
  AvlMap.bst m = true -> AvlMap.bst (AvlMap.touch k m) = true.
Proof.
  intros Hbst. unfold AvlMap.touch. rewrite subscript_result.
  destruct (slot_get _ _) eqn:Hslot; cbn [is_null]; [|exact Hbst].
  unfold AvlMap.bst, AvlMap.keys. cbn [AvlMap.root].
  rewrite (map_slot_fill_inorder k _ _ Hbst Hslot).
  now apply add_absent_ascending.
Qed.

Lemma map_touch_nonneg (k : Z) (m : AvlMap.t) :
  heights_nonneg (AvlMap.root m) = true ->
  heights_nonneg (AvlMap.root (AvlMap.touch k m)) = true.
Proof.
  intros Hn. unfold AvlMap.touch. rewrite subscript_result.
  destruct (is_null _); [|exact Hn].
  cbn [AvlMap.root]. now apply heights_nonneg_slot_set.
Qed.

(** Assigning through a reference changes a value and no key. *)
Lemma slot_set_value_keys (v : Z) (p : slot) (t : tree AvlMap.entry) :
  match slot_get p t with
  | Leaf => True
  | Node l r e h =>
      map AvlMap.key (inorder (slot_set p (Node l r (AvlMap.Entry (AvlMap.key e) v) h) t)) =
      map AvlMap.key (inorder t)
  end.
Proof.
  revert t. induction p as [|[|] p IH]; intros t.
  - destruct t as [|l r e h]; [exact I|].
    cbn [slot_get slot_set inorder]. now rewrite !map_app.
  - destruct t as [|l r e h]; [exact I|]. cbn [slot_get slot_set].
    specialize (IH l). destruct (slot_get p l); [exact I|].
    cbn [inorder]. now rewrite !map_app, IH.
  - destruct t as [|l r e h]; [exact I|]. cbn [slot_get slot_set].
    specialize (IH r). destruct (slot_get p r); [exact I|].
    cbn [inorder]. rewrite !map_app. cbn [map]. now rewrite IH.
Qed.

Lemma map_assign_keys (p : slot) (v : Z) (m : AvlMap.t) :
  AvlMap.keys (AvlMap.assign p v m) = AvlMap.keys m.
Proof.
  unfold AvlMap.assign, AvlMap.keys.
  pose proof (slot_set_value_keys v p (AvlMap.root m)) as H.
  destruct (slot_get p (AvlMap.root m)); [reflexivity|exact H].
Qed.

Lemma map_assign_nonneg (p : slot) (v : Z) (m : AvlMap.t) :
  heights_nonneg (AvlMap.root m) = true ->
  heights_nonneg (AvlMap.root (AvlMap.assign p v m)) = true.
Proof.
  intros Hn. unfold AvlMap.assign.
  pose proof (heights_nonneg_slot_get p _ Hn) as Hs.
  destruct (slot_get p (AvlMap.root m)) as [|l r e h]; [exact Hn|].
  cbn [AvlMap.root]. apply heights_nonneg_slot_set; [exact Hn|].
  apply heights_nonneg_node in Hs. now apply heights_nonneg_node.
Qed.

Lemma map_store_touch (k v : Z) (m : AvlMap.t) :
  AvlMap.store k v m =
  AvlMap.assign (AvlMap.search_path k (AvlMap.root m)) v (AvlMap.touch k m).
Proof.
  unfold AvlMap.store, AvlMap.touch. now rewrite subscript_result.
Qed.

(** ** The map: what every sequence of public operations preserves *)

Lemma fold_left_invariant {S O : Type} (P : S -> Prop) (f : S -> O -> S) :
  (forall s o, P s -> P (f s o)) ->
  forall (ops : list O) (s : S), P s -> P (fold_left f ops s).
Proof.
  intros Hstep ops. induction ops as [|o ops IH]; intros s Hs; [exact Hs|].
  cbn. apply IH. now apply Hstep.
Qed.

Lemma map_erase_bst (k : Z) (m : AvlMap.t) :
  AvlMap.bst m = true -> AvlMap.bst (AvlMap.erase k m) = true.
Proof.
  unfold AvlMap.bst, AvlMap.keys, AvlMap.erase. cbn [AvlMap.root].
  intros Hbst. rewrite (map_remove_util_keys k _ Hbst).
  now apply ascending_filter.
Qed.

Lemma map_run_op_bst (m : AvlMap.t) (o : AvlMap.op) :
  AvlMap.bst m = true -> AvlMap.bst (AvlMap.run_op m o) = true.
Proof.
  intros Hbst. destruct o as [k v|k| |k|k v]; cbn [AvlMap.run_op].
  - now apply map_insert_bst.
  - now apply map_erase_bst.
  - reflexivity.
  - now apply map_touch_bst.
  - rewrite map_store_touch. unfold AvlMap.bst. rewrite map_assign_keys.
    now apply map_touch_bst.
Qed.

Lemma map_run_op_nonneg (m : AvlMap.t) (o : AvlMap.op) :
  heights_nonneg (AvlMap.root m) = true ->
  heights_nonneg (AvlMap.root (AvlMap.run_op m o)) = true.
Proof.
  intros Hn. destruct o as [k v|k| |k|k v]; cbn [AvlMap.run_op].
  - now apply map_insert_util_nonneg.
  - now apply map_remove_util_nonneg.
  - reflexivity.
  - now apply map_touch_nonneg.
  - rewrite map_store_touch. now apply map_assign_nonneg, map_touch_nonneg.
Qed.

(** After any sequence of public operations on a fresh map, [operator[]]
    included, the keys are in strictly ascending in-order and no cached
    height is negative. *)
Lemma map_run_ordered (ops : list AvlMap.op) :
  AvlMap.bst (AvlMap.run ops) = true /\
  heights_nonneg (AvlMap.root (AvlMap.run ops)) = true.
Proof.
  unfold AvlMap.run.
  apply (fold_left_invariant
           (fun m => AvlMap.bst m = true /\ heights_nonneg (AvlMap.root m) = true)).
  - intros m o [Hb Hn]. split; [now apply map_run_op_bst|now apply map_run_op_nonneg].
  - split; reflexivity.
Qed.

(** After any sequence of [insert], [erase] and [clear] on a fresh map, with
    no use of [operator[]], every cached height is right and every node is
    balanced. *)
Lemma map_run_avl (ops : list AvlMap.op) :
  forallb (fun o => negb (AvlMap.uses_subscript o)) ops = true ->
  avl (AvlMap.root (AvlMap.run ops)) = true.
Proof.
  intros Hops. apply avl_inv_iff. unfold AvlMap.run.
  assert (Hgen : forall m, avl_inv (AvlMap.root m) ->
                           avl_inv (AvlMap.root (fold_left AvlMap.run_op ops m))).
  { induction ops as [|o ops IH]; intros m Hm; [exact Hm|].
    cbn [forallb] in Hops. apply andb_true_iff in Hops as [Ho Hops].
    cbn [fold_left]. apply (IH Hops).
    destruct o as [k v|k| |k|k v]; cbn [AvlMap.run_op AvlMap.uses_subscript negb] in *;
      try discriminate.
    - now apply map_insert_util_avl.
    - now apply map_remove_util_avl.
    - exact I. }
  apply Hgen. exact I.
Qed.

(** ** The set *)

Lemma set_bst_node (l r : tree Z) (d h : Z) :
  ascending (inorder (Node l r d h)) = true <->
  ascending (inorder l) = true /\ ascending (inorder r) = true /\
  Forall (fun a => a < d) (inorder l) /\ Forall (fun a => d < a) (inorder r).
Proof. cbn [inorder]. apply ascending_app. Qed.

Lemma set_insert_util_inorder (x : Z) (t : tree Z) (n : Z) :
  ascending (inorder t) = true ->
  inorder (fst (AvlTree.insert_util x t n)) = add_absent (fun a => a) x (inorder t).
Proof.
  revert n. induction t as [|l IHl r IHr d h]; intros n Hbst; [reflexivity|].
  apply set_bst_node in Hbst as (Hl & Hr & Hlt & Hgt).
  cbn [AvlTree.insert_util].
  destruct (Z.ltb_spec x d) as [H1|H1].
  - specialize (IHl n Hl). destruct (AvlTree.insert_util x l n) as [l' n'].
    cbn [fst] in *. rewrite inorder_balance. cbn [inorder].
    rewrite IHl. symmetry. now apply (add_absent_app_lt (fun a => a)).
  - destruct (Z.ltb_spec d x) as [H2|H2]; cbn [fst].
    + specialize (IHr n Hr). destruct (AvlTree.insert_util x r n) as [r' n'].
      cbn [fst] in *. rewrite inorder_balance. cbn [inorder].
      rewrite IHr. symmetry. apply (add_absent_app_gt (fun a => a)); [|exact H2].
      eapply Forall_impl; [|exact Hlt]. cbn. intros a Ha. lia.
    + rewrite inorder_balance. cbn [inorder].
      symmetry. apply (add_absent_app_eq (fun a => a)); [|lia].
      eapply Forall_impl; [|exact Hlt]. cbn. intros a Ha. lia.
Qed.

Lemma set_insert_util_avl (x : Z) (t : tree Z) (n : Z) :
  avl_inv t ->
  avl_inv (fst (AvlTree.insert_util x t n)) /\
  height t <= height (fst (AvlTree.insert_util x t n)) <= height t + 1.
Proof.
  revert n. induction t as [|l IHl r IHr d h]; intros n Havl.
  - cbn. repeat split; lia.
  - pose proof Havl as (Hl & Hr & Hh & Hb).
    cbn [AvlTree.insert_util].
    destruct (x <? d).
    + specialize (IHl n Hl). destruct (AvlTree.insert_util x l n) as [l' n'].
      cbn [fst] in *. destruct IHl as (Hl' & Hb').
      destruct (balance_avl l' r d h Hl' Hr) as (Ha & Hrange & Hfix); [lia|].
      split; [exact Ha|]. cbn [height].
      destruct (Z.le_gt_cases (Z.abs (height l' - height r)) 1)
        as [Hc|Hc]; [rewrite (Hfix Hc); cbn [height]|]; lia.
    + destruct (d <? x); cbn [fst].
      * specialize (IHr n Hr). destruct (AvlTree.insert_util x r n) as [r' n'].
        cbn [fst] in *. destruct IHr as (Hr' & Hb').
        destruct (balance_avl l r' d h Hl Hr') as (Ha & Hrange & Hfix); [lia|].
        split; [exact Ha|]. cbn [height].
        destruct (Z.le_gt_cases (Z.abs (height l - height r')) 1)
          as [Hc|Hc]; [rewrite (Hfix Hc); cbn [height]|]; lia.
      * rewrite (balance_avl_fix _ Havl). split; [exact Havl|lia].
Qed.

(** On a tree that satisfies the AVL invariant the set's [remove_util]
    returns the very same tree, whatever the key. *)
Lemma set_remove_util_avl (x : Z) (t : tree Z) (n : Z) :
  avl_inv t -> fst (AvlTree.remove_util x t n) = t.
Proof.
  revert n. induction t as [|l IHl r IHr d h]; intros n Havl; [reflexivity|].
  pose proof Havl as (Hl & Hr & _).
  cbn [AvlTree.remove_util].
  destruct (Z.ltb_spec x d) as [H1|H1].
  - specialize (IHl n Hl). destruct (AvlTree.remove_util x l n) as [l' n'].
    cbn [fst] in *. subst l'. now apply balance_avl_fix.
  - destruct (Z.ltb_spec d x) as [H2|H2].
    + specialize (IHr n Hr). destruct (AvlTree.remove_util x r n) as [r' n'].
      cbn [fst] in *. subst r'. now apply balance_avl_fix.
    + destruct (Z.eqb_spec d x); [reflexivity|lia].
Qed.

Lemma set_insert_root (x : Z) (s : AvlTree.t) :
  AvlTree.root (AvlTree.insert x s) =
  fst (AvlTree.insert_util x (AvlTree.root s) (AvlTree.sz s)).
Proof.
  unfold AvlTree.insert. now destruct (AvlTree.insert_util _ _ _).
Qed.

Lemma set_remove_root (x : Z) (s : AvlTree.t) :
  AvlTree.root (AvlTree.remove x s) =
  fst (AvlTree.remove_util x (AvlTree.root s) (AvlTree.sz s)).
Proof.
  unfold AvlTree.remove. now destruct (AvlTree.remove_util _ _ _).
Qed.

(** After any sequence of public operations on a fresh set every cached
    height is right, every node is balanced and the elements are in strictly
    ascending in-order. *)
Lemma set_run_avl (ops : list AvlTree.op) :
  avl (AvlTree.root (AvlTree.run ops)) = true /\
  AvlTree.bst (AvlTree.run ops) = true.
Proof.
  unfold AvlTree.run.
  apply (fold_left_invariant
           (fun s => avl (AvlTree.root s) = true /\ AvlTree.bst s = true)).
  - intros s o [Ha Hb]. apply avl_inv_iff in Ha.
    unfold AvlTree.bst, AvlTree.elements in *.
    destruct o as [x|x|]; cbn [AvlTree.run_op].
    + rewrite set_insert_root. split.
      * apply avl_inv_iff. now apply set_insert_util_avl.
      * rewrite (set_insert_util_inorder x _ _ Hb).
        rewrite <- (map_id (add_absent _ _ _)).
        apply (add_absent_ascending (fun a => a)). now rewrite map_id.
    + rewrite set_remove_root, (set_remove_util_avl x _ _ Ha).
      split; [now apply avl_inv_iff|exact Hb].
    + split; reflexivity.
  - split; reflexivity.
Qed.

(** In every state so reached [remove] leaves the tree exactly as it was:
    the set never loses an element except through [clear()]. *)
Lemma set_remove_changes_nothing (ops : list AvlTree.op) (x : Z) :
  AvlTree.root (AvlTree.remove x (AvlTree.run ops)) = AvlTree.root (AvlTree.run ops).
Proof.
  rewrite set_remove_root. apply set_remove_util_avl.
  apply avl_inv_iff. apply set_run_avl.
Qed.

(** * Further properties of the operations *)

(** ** Ascending sequences, once more *)

Lemma ascending_sorted (ks : list Z) :
  ascending ks = true <-> StronglySorted Z.lt ks.
Proof.
  induction ks as [|k ks IH]; [split; [constructor|reflexivity]|].
  rewrite ascending_cons, IH. split.
  - intros [Hall Hs]. now constructor.
  - intros Hs. inversion Hs; subst. now split.
Qed.

Lemma ascending_NoDup (ks : list Z) : ascending ks = true -> NoDup ks.
Proof.
  induction ks as [|k ks IH]; [constructor|].
  intros H. apply ascending_cons in H as [Hall Hasc]. constructor; [|auto].
  intros Hin. rewrite Forall_forall in Hall. specialize (Hall k Hin). lia.
Qed.


Section SequenceFacts2.
Context {A : Type} (key_of : A -> Z).
Implicit Types es : list A.

Lemma assoc_existsb es (k : Z) :
  match assoc key_of k es with Some _ => true | None => false end =
  existsb (Z.eqb k) (map key_of es).
Proof.
  unfold assoc. induction es as [|a es IH]; [reflexivity|].
  cbn. rewrite (Z.eqb_sym k). now destruct (key_of a =? k).
Qed.

Lemma assoc_add_absent_other es (a : A) (j : Z) :
  j <> key_of a ->
  assoc key_of j (add_absent key_of a es) = assoc key_of j es.
Proof.
  intros Hj. unfold assoc.
  assert (Ha : (key_of a =? j) = false) by (apply Z.eqb_neq; congruence).
  induction es as [|b es IH]; cbn.
  - now rewrite Ha.
  - destruct (key_of a <? key_of b); [cbn; now rewrite Ha|].
    destruct (key_of b <? key_of a); [|reflexivity].
    cbn. now rewrite IH.
Qed.

Lemma add_absent_In es (a : A) (k : Z) :
  In k (map key_of (add_absent key_of a es)) <->
  k = key_of a \/ In k (map key_of es).
Proof.
  induction es as [|b es IH]; cbn.
  - intuition.
  - destruct (Z.ltb_spec (key_of a) (key_of b)); [cbn; intuition|].
    destruct (Z.ltb_spec (key_of b) (key_of a)); cbn.
    + rewrite IH. intuition.
    + assert (key_of a = key_of b) by lia. intuition congruence.
Qed.

(** In an ascending sequence a key has one element, and [assoc] finds it. *)
Lemma assoc_In es (k : Z) (e : A) :
  ascending (map key_of es) = true ->
  assoc key_of k es = Some e <-> In e es /\ key_of e = k.
Proof.
  intros Hasc. split.
  - intros H. apply find_some in H as [Hin Hk]. now apply Z.eqb_eq in Hk.
  - intros [Hin Hk]. unfold assoc.
    induction es as [|a es IH]; [contradiction|].
    cbn [map] in Hasc. apply ascending_cons in Hasc as [Hall Hasc].
    cbn [find]. destruct (Z.eqb_spec (key_of a) k) as [Hak|Hak].
    + destruct Hin as [->|Hin]; [reflexivity|].
      rewrite Forall_map, Forall_forall in Hall. specialize (Hall e Hin). lia.
    + destruct Hin as [->|Hin]; [contradiction|]. now apply IH.
Qed.
End SequenceFacts2.

(** ** Rebalancing *)


(** X2.  Two subtrees that each have right cached heights and balanced nodes,
    and whose heights differ by at most two, are joined by [balance] into a
    tree with right cached heights and balanced nodes.  Its height is the
    larger of the two heights or one more. *)
Theorem balance_restores_avl {A : Type} (l r : tree A) (d : A) (h : Z) :
  avl l = true -> avl r = true ->
  Z.abs (real_height l - real_height r) <= 2 ->
  avl (balance (Node l r d h)) = true /\
  Z.max (real_height l) (real_height r)
    <= real_height (balance (Node l r d h))
    <= Z.max (real_height l) (real_height r) + 1.
Proof.
  intros Hl Hr Hd. apply avl_inv_iff in Hl, Hr.
  rewrite <- (avl_inv_real_height l Hl), <- (avl_inv_real_height r Hr) in *.
  destruct (balance_avl l r d h Hl Hr Hd) as (Ha & Hrange & _).
  rewrite <- (avl_inv_real_height _ Ha).
  split; [now apply avl_inv_iff|exact Hrange].
Qed.

Lemma balance_restores_avl_witness :
  avl (Node (Node Leaf Leaf 1 0) Leaf 2 1) = true /\
  Z.abs (real_height (Node (Node Leaf Leaf 1 0) Leaf 2 1) - real_height (@Leaf Z)) <= 2 /\
  avl (balance (Node (Node (Node Leaf Leaf 1 0) Leaf 2 1) Leaf 3 0)) = true.
Proof.
  split; [reflexivity|]. split; [cbn; lia|].
  apply (balance_restores_avl (Node (Node Leaf Leaf 1 0) Leaf 2 1) Leaf 3 0);
    [reflexivity|reflexivity|cbn; lia].
Defined.

(** ** Height of a balanced tree *)

Lemma node_count_nonneg {A : Type} (t : tree A) : 0 <= node_count t.
Proof. rewrite node_count_inorder. lia. Qed.

(** A tree that satisfies the AVL invariant and has height [h] holds at least
    [2 ^ ((h + 1) / 2) - 1] nodes: the height is logarithmic in the size. *)
Lemma avl_inv_log {A : Type} (t : tree A) :
  avl_inv t -> 2 ^ ((height t + 1) / 2) <= node_count t + 1.
Proof.
  induction t as [|l IHl r IHr d h]; [intros _; cbn; lia|].
  intros (Hl & Hr & Hh & Hb). specialize (IHl Hl). specialize (IHr Hr).
  pose proof (avl_inv_height l Hl) as Bl. pose proof (avl_inv_height r Hr) as Br.
  pose proof (node_count_nonneg l) as Cl. pose proof (node_count_nonneg r) as Cr.
  cbn [height node_count].
  destruct (Z.eq_dec h 0) as [->|Hh0]; [cbn; lia|].
  assert (H1 : 1 <= h) by lia.
  replace (h + 1) with ((h - 1) + 1 * 2) by lia.
  rewrite Z.div_add by lia.
  assert (Hdiv : 0 <= (h - 1) / 2) by (apply Z.div_pos; lia).
  replace ((h - 1) / 2 + 1) with (Z.succ ((h - 1) / 2)) by lia.
  rewrite Z.pow_succ_r by exact Hdiv.
  assert (Hml : 2 ^ ((h - 1) / 2) <= 2 ^ ((height l + 1) / 2)).
  { apply Z.pow_le_mono_r; [lia|]. apply Z.div_le_mono; lia. }
  assert (Hmr : 2 ^ ((h - 1) / 2) <= 2 ^ ((height r + 1) / 2)).
  { apply Z.pow_le_mono_r; [lia|]. apply Z.div_le_mono; lia. }
  lia.
Qed.

(** ** What every sequence of operations on a map gives *)

(** X3.  After any sequence of [insert], [erase], [clear], [m[k]] and
    [m[k] = v] on a fresh map, the in-order keys are strictly increasing and
    free of duplicates: the search-tree ordering survives every operation,
    [operator[]] included. *)
Theorem map_keys_sorted_after_any_operations (ops : list AvlMap.op) :
  StronglySorted Z.lt (AvlMap.keys (AvlMap.run ops)) /\
  NoDup (AvlMap.keys (AvlMap.run ops)).
Proof.
  destruct (map_run_ordered ops) as [Hbst _]. unfold AvlMap.bst in Hbst.
  split; [now apply ascending_sorted|now apply ascending_NoDup].
Qed.

(** X4.  After any sequence of [insert], [erase] and [clear] on a fresh map,
    with [operator[]] not used, every cached height is right, every node is
    balanced, and a tree of height [h] holds at least [2 ^ ((h + 1) / 2) - 1]
    entries. *)
Theorem map_balanced_without_subscript (ops : list AvlMap.op) :
  forallb (fun o => negb (AvlMap.uses_subscript o)) ops = true ->
  heights_ok (AvlMap.root (AvlMap.run ops)) = true /\
  balanced (AvlMap.root (AvlMap.run ops)) = true /\
  2 ^ ((real_height (AvlMap.root (AvlMap.run ops)) + 1) / 2)
    <= node_count (AvlMap.root (AvlMap.run ops)) + 1.
Proof.
  intros Hops. pose proof (map_run_avl ops Hops) as Havl.
  pose proof Havl as Hinv. apply avl_inv_iff in Hinv.
  unfold avl in Havl. apply andb_true_iff in Havl as [Hh Hb].
  split; [exact Hh|]. split; [exact Hb|].
  rewrite <- (avl_inv_real_height _ Hinv). now apply avl_inv_log.
Qed.

Lemma map_balanced_without_subscript_witness :
  forallb (fun o => negb (AvlMap.uses_subscript o))
    [AvlMap.Insert 1 0; AvlMap.Insert 2 0; AvlMap.Insert 3 0;
     AvlMap.Erase 1; AvlMap.Insert 4 0; AvlMap.Insert 5 0] = true /\
  balanced (AvlMap.root (AvlMap.run
    [AvlMap.Insert 1 0; AvlMap.Insert 2 0; AvlMap.Insert 3 0;
     AvlMap.Erase 1; AvlMap.Insert 4 0; AvlMap.Insert 5 0])) = true.
Proof.
  split; [reflexivity|].
  apply (map_balanced_without_subscript
           [AvlMap.Insert 1 0; AvlMap.Insert 2 0; AvlMap.Insert 3 0;
            AvlMap.Erase 1; AvlMap.Insert 4 0; AvlMap.Insert 5 0]).
  reflexivity.
Defined.

(** X5.  After any sequence of [insert], [remove] and [clear] on a fresh set
    the elements are strictly increasing in in-order, every cached height is
    right, every node is balanced, and a tree of height [h] holds at least
    [2 ^ ((h + 1) / 2) - 1] elements. *)
Theorem set_balanced_after_any_operations (ops : list AvlTree.op) :
  StronglySorted Z.lt (AvlTree.elements (AvlTree.run ops)) /\
  heights_ok (AvlTree.root (AvlTree.run ops)) = true /\
  balanced (AvlTree.root (AvlTree.run ops)) = true /\
  2 ^ ((real_height (AvlTree.root (AvlTree.run ops)) + 1) / 2)
    <= node_count (AvlTree.root (AvlTree.run ops)) + 1.
Proof.
  destruct (set_run_avl ops) as [Havl Hbst].
  pose proof Havl as Hinv. apply avl_inv_iff in Hinv.
  unfold avl in Havl. apply andb_true_iff in Havl as [Hh Hb].
  split; [now apply ascending_sorted|].
  split; [exact Hh|]. split; [exact Hb|].
  rewrite <- (avl_inv_real_height _ Hinv). now apply avl_inv_log.
Qed.

(** ** Looking keys up in the map *)

Lemma map_search_existsb (k : Z) (m : AvlMap.t) :
  AvlMap.bst m = true ->
  AvlMap.search k m = Some (existsb (Z.eqb k) (AvlMap.keys m)).
Proof.
  intros Hbst. unfold AvlMap.search. rewrite search_slot_path. cbn [option_map].
  f_equal. unfold AvlMap.keys. rewrite <- assoc_existsb.
  rewrite <- (search_path_assoc k _ Hbst). now destruct (slot_get _ _).
Qed.


(** X7.  In every state reached by public operations on a fresh map, [at(k)]
    returns [v] exactly when [(k, v)] is an entry of the in-order
    enumeration, and throws the not-found exception exactly when [k] is not
    one of its keys. *)
Theorem map_at_reads_the_entries (ops : list AvlMap.op) (k v : Z) :
  (AvlMap.at_ k (AvlMap.run ops) = Some (Returned v) <->
   In (k, v) (AvlMap.entries (AvlMap.run ops))) /\
  (AvlMap.at_ k (AvlMap.run ops) = Some (Thrown NotFound) <->
   ~ In k (AvlMap.keys (AvlMap.run ops))).
Proof.
  destruct (map_run_ordered ops) as [Hbst _].
  rewrite (at_assoc k _ Hbst). unfold AvlMap.entries, AvlMap.keys.
  set (es := inorder (AvlMap.root (AvlMap.run ops))) in *.
  assert (Hasc : ascending (map AvlMap.key es) = true) by exact Hbst.
  split.
  - rewrite in_map_iff. split.
    + destruct (assoc AvlMap.key k es) as [e|] eqn:E; [|discriminate].
      intros H. injection H as <-.
      apply (assoc_In AvlMap.key es k e Hasc) in E as [Hin <-]. now exists e.
    + intros (e & He & Hin). injection He as <- <-.
      now rewrite (proj2 (assoc_In AvlMap.key es _ e Hasc) (conj Hin eq_refl)).
  - rewrite in_map_iff. split.
    + destruct (assoc AvlMap.key k es) as [e|] eqn:E; [discriminate|].
      intros _ (e & Hk & Hin).
      rewrite (proj2 (assoc_In AvlMap.key es k e Hasc) (conj Hin Hk)) in E.
      discriminate.
    + intros Hn. destruct (assoc AvlMap.key k es) as [e|] eqn:E; [|reflexivity].
      apply (assoc_In AvlMap.key es k e Hasc) in E as [Hin Hk].
      exfalso. apply Hn. now exists e.
Qed.

Lemma map_at_insert_bst (m : AvlMap.t) (k v j : Z) :
  AvlMap.bst m = true ->
  AvlMap.at_ j (AvlMap.insert k v m) =
  match j =? k, AvlMap.search k m with
  | true, Some false => Some (Returned v)
  | _, _ => AvlMap.at_ j m
  end.
Proof.
  intros Hbst.
  pose proof (map_insert_bst k v _ Hbst) as Hbst'.
  rewrite (at_assoc j _ Hbst'), (at_assoc j _ Hbst), (map_search_existsb k _ Hbst).
  change (AvlMap.root (AvlMap.insert k v m))
    with (AvlMap.insert_util k v (AvlMap.root m)).
  rewrite (map_insert_util_inorder k v _ Hbst).
  unfold AvlMap.keys. rewrite <- assoc_existsb.
  set (es := inorder (AvlMap.root m)) in *.
  destruct (Z.eqb_spec j k) as [->|Hjk].
  - destruct (assoc AvlMap.key k es) as [e|] eqn:E.
    + now rewrite (add_absent_present AvlMap.key es (AvlMap.Entry k v) e Hbst E), E.
    + change k with (AvlMap.key (AvlMap.Entry k v)) at 1.
      now rewrite (assoc_add_absent_new AvlMap.key es (AvlMap.Entry k v) E).
  - now rewrite (assoc_add_absent_other AvlMap.key es (AvlMap.Entry k v) j Hjk).
Qed.

(** X8.  [insert] then [at], in every state reached by public operations:
    looking up the inserted key gives the inserted value when the key was
    absent and the value it already had when it was present; looking up any
    other key gives what it gave before. *)
Theorem map_at_after_insert (ops : list AvlMap.op) (k v j : Z) :
  AvlMap.at_ j (AvlMap.insert k v (AvlMap.run ops)) =
  match j =? k, AvlMap.search k (AvlMap.run ops) with
  | true, Some false => Some (Returned v)
  | _, _ => AvlMap.at_ j (AvlMap.run ops)
  end.
Proof.
  destruct (map_run_ordered ops) as [Hbst _].
  now apply map_at_insert_bst.
Qed.


(** X10.  Assignment through [operator[]], in any map state: after
    [m[k] = v], [at(k)] returns [v], and the keys are the keys after the
    plain access [m[k]]. *)
Theorem map_at_after_store (m : AvlMap.t) (k v : Z) :
  AvlMap.at_ k (AvlMap.store k v m) = Some (Returned v) /\
  AvlMap.keys (AvlMap.store k v m) = AvlMap.keys (AvlMap.touch k m).
Proof.
  rewrite map_store_touch. split; [|apply map_assign_keys].
  set (p := AvlMap.search_path k (AvlMap.root m)).
  assert (Htouch : exists l r e h,
             slot_get p (AvlMap.root (AvlMap.touch k m)) = Node l r e h /\
             AvlMap.key e = k /\
             AvlMap.search_path k (AvlMap.root (AvlMap.touch k m)) = p).
  { unfold AvlMap.touch. rewrite subscript_result. fold p.
    pose proof (search_path_target k (AvlMap.root m)) as Ht. fold p in Ht.
    destruct (slot_get p (AvlMap.root m)) as [|l r e h] eqn:Hslot; cbn [is_null].
    - destruct (search_path_slot_set k (AvlMap.root m) Leaf Leaf
                  (AvlMap.Entry k AvlMap.default_value) 0 eq_refl) as [Hp Hg].
      fold p in Hp, Hg. cbn [AvlMap.root]. rewrite Hg. now eauto 10.
    - exists l, r, e, h. now auto. }
  destruct Htouch as (l & r & e & h & Hslot & Hk & Hp).
  unfold AvlMap.assign. rewrite Hslot.
  rewrite at_result. cbn [AvlMap.root].
  destruct (search_path_slot_set k (AvlMap.root (AvlMap.touch k m)) l r
              (AvlMap.Entry (AvlMap.key e) v) h Hk) as [Hp' Hg'].
  rewrite Hp in Hp', Hg'. now rewrite Hp', Hg'.
Qed.

(** ** Erasing from the map *)

(** X11.  In any map state, erasing a key that [search] does not find leaves
    the in-order sequence of entries, and with it the number of nodes, as it
    was. *)
Theorem map_erase_absent_keeps_entries (m : AvlMap.t) (k : Z) :
  AvlMap.search k m = Some false ->
  AvlMap.entries (AvlMap.erase k m) = AvlMap.entries m /\
  node_count (AvlMap.root (AvlMap.erase k m)) = node_count (AvlMap.root m).
Proof.
  unfold AvlMap.search. rewrite search_slot_path. cbn [option_map]. intros Habs.
  assert (Hslot : slot_get (AvlMap.search_path k (AvlMap.root m)) (AvlMap.root m) = Leaf).
  { destruct (slot_get _ _); [reflexivity|discriminate]. }
  pose proof (map_remove_util_absent k _ Hslot) as Hin.
  unfold AvlMap.entries, AvlMap.erase. cbn [AvlMap.root].
  rewrite !node_count_inorder, Hin. now split.
Qed.

Lemma map_erase_absent_keeps_entries_witness :
  AvlMap.search 4 (AvlMap.from_list [(2,7); (1,8); (3,9); (5,6)]) = Some false /\
  AvlMap.entries (AvlMap.erase 4 (AvlMap.from_list [(2,7); (1,8); (3,9); (5,6)])) =
  AvlMap.entries (AvlMap.from_list [(2,7); (1,8); (3,9); (5,6)]).
Proof.
  split; [reflexivity|].
  apply (map_erase_absent_keeps_entries
           (AvlMap.from_list [(2,7); (1,8); (3,9); (5,6)]) 4).
  reflexivity.
Defined.

Lemma inorder_node_cons {A : Type} (l r : tree A) (d : A) (h : Z) :
  exists a rest, inorder (Node l r d h) = a :: rest.
Proof.
  destruct (findMin_inorder l r d h) as (_ & _ & md & _ & rest & _ & E). eauto.
Qed.

(** Removing the first key of a search tree removes the first entry. *)
Lemma map_remove_util_first (t : tree AvlMap.entry) (m : AvlMap.entry)
      (rest : list AvlMap.entry) :
  ascending (map AvlMap.key (inorder t)) = true ->
  inorder t = m :: rest ->
  inorder (AvlMap.remove_util (AvlMap.key m) t) = rest.
Proof.
  revert rest. induction t as [|l IHl r _ e h]; intros rest Hbst Hin; [discriminate|].
  pose proof Hbst as Hbst'. apply bst_node in Hbst' as (Hl & Hr & Hlt & Hgt).
  cbn [AvlMap.remove_util].
  destruct l as [|ll lr le lh].
  - cbn [inorder app] in Hin. injection Hin as <- <-.
    rewrite Z.ltb_irrefl. cbn [is_null negb andb]. now rewrite inorder_balance.
  - destruct (inorder_node_cons ll lr le lh) as (a & rest' & E).
    cbn [inorder] in Hin. change (inorder ll ++ le :: inorder lr)
      with (inorder (Node ll lr le lh)) in Hin.
    rewrite E in Hin. cbn [app] in Hin. injection Hin as -> <-.
    rewrite E in Hlt. inversion Hlt as [|? ? Hm _]; subst.
    apply Z.ltb_lt in Hm. rewrite Hm.
    rewrite inorder_balance. cbn [inorder]. now rewrite (IHl rest' Hl E).
Qed.

(** X12.  Erasing the key of a node with two children, in a search tree: the
    node takes over the key of its in-order successor but keeps its own
    value, and the successor's node is unlinked.  The entries to the left are
    untouched, the successor's key now carries the erased key's value, and
    the successor's value is gone. *)
Theorem map_erase_two_children_keeps_value
        (l r : tree AvlMap.entry) (e : AvlMap.entry) (h : Z)
        (succ : AvlMap.entry) (rest : list AvlMap.entry) :
  ascending (map AvlMap.key (inorder (Node l r e h))) = true ->
  is_null l = false ->
  inorder r = succ :: rest ->
  inorder (AvlMap.remove_util (AvlMap.key e) (Node l r e h)) =
  inorder l ++ AvlMap.Entry (AvlMap.key succ) (AvlMap.value e) :: rest.
Proof.
  intros Hbst Hl Hr.
  pose proof Hbst as Hbst'. apply bst_node in Hbst' as (_ & Hbr & _ & _).
  cbn [AvlMap.remove_util]. rewrite Z.ltb_irrefl, Hl.
  destruct r as [|rl rr re rh]; [discriminate|]. cbn [is_null negb andb].
  destruct (findMin_inorder rl rr re rh) as (ml & mr & md & mh & rest' & -> & E).
  rewrite E in Hr. injection Hr as -> ->.
  rewrite inorder_balance. cbn [inorder].
  now rewrite (map_remove_util_first _ succ rest Hbr E).
Qed.

Lemma map_erase_two_children_keeps_value_witness :
  ascending (map AvlMap.key (inorder
    (Node (Node Leaf Leaf (AvlMap.Entry 1 10) 0)
          (Node Leaf Leaf (AvlMap.Entry 3 30) 0) (AvlMap.Entry 2 20) 1))) = true /\
  is_null (Node Leaf Leaf (AvlMap.Entry 1 10) 0) = false /\
  inorder (Node Leaf Leaf (AvlMap.Entry 3 30) 0) = [AvlMap.Entry 3 30] /\
  inorder (AvlMap.remove_util 2
    (Node (Node Leaf Leaf (AvlMap.Entry 1 10) 0)
          (Node Leaf Leaf (AvlMap.Entry 3 30) 0) (AvlMap.Entry 2 20) 1)) =
  [AvlMap.Entry 1 10; AvlMap.Entry 3 20].
Proof.
  split; [reflexivity|]. split; [reflexivity|]. split; [reflexivity|].
  apply (map_erase_two_children_keeps_value
           (Node Leaf Leaf (AvlMap.Entry 1 10) 0)
           (Node Leaf Leaf (AvlMap.Entry 3 30) 0) (AvlMap.Entry 2 20) 1
           (AvlMap.Entry 3 30) []); reflexivity.
Defined.

(** ** Building a map from a sequence of pairs *)

Lemma fold_left_map {S O O' : Type} (f : S -> O' -> S) (g : O -> O')
      (l : list O) (s : S) :
  fold_left f (map g l) s = fold_left (fun a x => f a (g x)) l s.
Proof. revert s. induction l as [|x l IH]; intros s; [reflexivity|apply IH]. Qed.

Lemma map_from_list_run (kvs : list (Z * Z)) :
  AvlMap.from_list kvs =
  AvlMap.run (map (fun kv => AvlMap.Insert (fst kv) (snd kv)) kvs).
Proof. unfold AvlMap.from_list, AvlMap.run. now rewrite fold_left_map. Qed.

Lemma map_from_list_snoc (kvs : list (Z * Z)) (kv : Z * Z) :
  AvlMap.from_list (kvs ++ [kv]) =
  AvlMap.insert (fst kv) (snd kv) (AvlMap.from_list kvs).
Proof. unfold AvlMap.from_list. now rewrite fold_left_app. Qed.

Lemma find_snoc {B : Type} (f : B -> bool) (l : list B) (a : B) :
  find f (l ++ [a]) =
  match find f l with
  | Some x => Some x
  | None => if f a then Some a else None
  end.
Proof.
  induction l as [|b l IH]; [reflexivity|]. cbn. now destruct (f b).
Qed.

Lemma wrap_incr (n : Z) : incr (wrap n) = wrap (n + 1).
Proof. unfold incr, wrap. now rewrite Zplus_mod_idemp_l. Qed.

(** X13.  The range and initializer-list constructors of the map.  For a
    key that occurs several times in the sequence the first pair wins, since
    [insert] never overwrites: [at(k)] returns the value of the first pair
    with key [k], and throws when there is none.  [size()] is the length of
    the sequence (modulo [2^64]), duplicates counted. *)
Theorem map_from_list_first_pair_wins (kvs : list (Z * Z)) (k : Z) :
  AvlMap.at_ k (AvlMap.from_list kvs) =
    Some match find (fun kv => fst kv =? k) kvs with
         | Some kv => Returned (snd kv)
         | None => Thrown NotFound
         end /\
  AvlMap.size (AvlMap.from_list kvs) = wrap (Z.of_nat (length kvs)).
Proof.
  induction kvs as [|[k' v'] kvs [IHat IHsz]] using rev_ind; [split; reflexivity|].
  rewrite map_from_list_snoc. cbn [fst snd]. split.
  - assert (Hbst : AvlMap.bst (AvlMap.from_list kvs) = true)
      by (rewrite map_from_list_run; apply map_run_ordered).
    rewrite (map_at_insert_bst _ k' v' k Hbst), find_snoc. cbn [fst snd].
    rewrite (Z.eqb_sym k' k).
    destruct (Z.eqb_spec k k') as [->|Hne].
    + rewrite (map_search_existsb k' _ Hbst).
      rewrite (at_assoc k' _ Hbst) in IHat.
      unfold AvlMap.keys. rewrite <- assoc_existsb.
      destruct (assoc AvlMap.key k' (inorder (AvlMap.root (AvlMap.from_list kvs))))
        as [e|] eqn:E;
        destruct (find (fun kv => fst kv =? k') kvs) as [kv|] eqn:F;
        try discriminate; try reflexivity.
      rewrite (at_assoc k' _ Hbst), E. exact IHat.
    + rewrite IHat. now destruct (AvlMap.search k' (AvlMap.from_list kvs)) as [[|]|],
        (find (fun kv => fst kv =? k) kvs).
  - unfold AvlMap.size, AvlMap.insert in *. cbn [AvlMap.sz].
    rewrite IHsz, wrap_incr, length_app. cbn [length]. f_equal. lia.
Qed.

(** ** The set: membership, insertion and removal *)

Lemma wrap_range (n : Z) : 0 <= wrap n < 2 ^ 64.
Proof. unfold wrap. apply Z.mod_pos_bound. lia. Qed.

Lemma incr_decr (n : Z) : 0 <= n < 2 ^ 64 -> incr (decr n) = n.
Proof.
  intros Hn. unfold incr, decr, wrap. rewrite Zplus_mod_idemp_l.
  replace (n - 1 + 1) with n by lia. now apply Z.mod_small.
Qed.

Lemma decr_incr (n : Z) : 0 <= n < 2 ^ 64 -> decr (incr n) = n.
Proof.
  intros Hn. unfold incr, decr, wrap. rewrite Zminus_mod_idemp_l.
  replace (n + 1 - 1) with n by lia. now apply Z.mod_small.
Qed.

Lemma set_sz_range (ops : list AvlTree.op) :
  0 <= AvlTree.sz (AvlTree.run ops) < 2 ^ 64.
Proof.
  unfold AvlTree.run.
  apply (fold_left_invariant (fun s => 0 <= AvlTree.sz s < 2 ^ 64)).
  - intros s o Hs. destruct o as [x|x|]; cbn [AvlTree.run_op].
    + unfold AvlTree.insert. destruct (AvlTree.insert_util _ _ _).
      cbn [AvlTree.sz]. apply wrap_range.
    + unfold AvlTree.remove. destruct (AvlTree.remove_util _ _ _).
      cbn [AvlTree.sz]. apply wrap_range.
    + exact Hs.
  - cbn. lia.
Qed.

(** The counter that [insert_util] hands back: decremented exactly when the
    descent ends on a node that holds [x]. *)
Lemma set_insert_util_sz (x : Z) (t : tree Z) (n : Z) :
  snd (AvlTree.insert_util x t n) =
  if is_null (AvlTree.search_node x t) then n else decr n.
Proof.
  induction t as [|l IHl r IHr d h]; [reflexivity|].
  cbn [AvlTree.insert_util AvlTree.search_node].
  destruct (x <? d).
  - destruct (AvlTree.insert_util x l n). exact IHl.
  - destruct (d <? x); [|reflexivity].
    destruct (AvlTree.insert_util x r n). exact IHr.
Qed.

(** The counter that [remove_util] hands back: incremented exactly when the
    descent ends on a node that holds [x]. *)
Lemma set_remove_util_sz (x : Z) (t : tree Z) (n : Z) :
  snd (AvlTree.remove_util x t n) =
  if is_null (AvlTree.search_node x t) then n else incr n.
Proof.
  induction t as [|l IHl r IHr d h]; [reflexivity|].
  cbn [AvlTree.remove_util AvlTree.search_node].
  destruct (Z.ltb_spec x d).
  - destruct (AvlTree.remove_util x l n). exact IHl.
  - destruct (Z.ltb_spec d x).
    + destruct (AvlTree.remove_util x r n). exact IHr.
    + destruct (Z.eqb_spec d x); [reflexivity|lia].
Qed.

Lemma existsb_none (x : Z) (ks : list Z) :
  Forall (fun k => k <> x) ks -> existsb (Z.eqb x) ks = false.
Proof.
  induction 1 as [|k ks Hk _ IH]; [reflexivity|].
  cbn. rewrite IH. destruct (Z.eqb_spec x k); [congruence|reflexivity].
Qed.

Lemma set_search_existsb (x : Z) (t : tree Z) :
  ascending (inorder t) = true ->
  negb (is_null (AvlTree.search_node x t)) = existsb (Z.eqb x) (inorder t).
Proof.
  induction t as [|l IHl r IHr d h]; intros Hbst; [reflexivity|].
  apply set_bst_node in Hbst as (Hl & Hr & Hlt & Hgt).
  cbn [AvlTree.search_node inorder]. rewrite existsb_app. cbn [existsb].
  destruct (Z.ltb_spec x d) as [H1|H1].
  - rewrite (IHl Hl). destruct (Z.eqb_spec x d); [lia|].
    rewrite (existsb_none x (inorder r)); [now rewrite !orb_false_r|].
    eapply Forall_impl; [|exact Hgt]. cbn. intros a Ha. lia.
  - destruct (Z.ltb_spec d x) as [H2|H2].
    + rewrite (IHr Hr). destruct (Z.eqb_spec x d); [lia|].
      rewrite (existsb_none x (inorder l)); [reflexivity|].
      eapply Forall_impl; [|exact Hlt]. cbn. intros a Ha. lia.
    + replace d with x by lia. rewrite Z.eqb_refl. cbn [is_null negb].
      now rewrite orb_true_r.
Qed.

Lemma existsb_In (x : Z) (ks : list Z) :
  existsb (Z.eqb x) ks = true <-> In x ks.
Proof.
  rewrite existsb_exists. split.
  - intros (y & Hin & Hy). apply Z.eqb_eq in Hy. now subst.
  - intros Hin. exists x. split; [exact Hin|apply Z.eqb_refl].
Qed.

(** X14.  In every state reached by public operations on a fresh set,
    [search(x)] is true exactly when [x] is one of the elements of the
    in-order enumeration. *)
Theorem set_search_finds_exactly_the_elements (ops : list AvlTree.op) (x : Z) :
  AvlTree.search x (AvlTree.run ops) = true <->
  In x (AvlTree.elements (AvlTree.run ops)).
Proof.
  destruct (set_run_avl ops) as [_ Hbst].
  unfold AvlTree.search. rewrite (set_search_existsb x _ Hbst).
  apply existsb_In.
Qed.

(** X15.  [insert(x)] in every state reached by public operations on a fresh
    set: afterwards [x] is found, the elements are the old ones and [x], and
    [size()] is unchanged when [x] was already there and one more (modulo
    [2^64]) when it was not. *)
Theorem set_insert_effect (ops : list AvlTree.op) (x : Z) :
  AvlTree.search x (AvlTree.insert x (AvlTree.run ops)) = true /\
  (forall y : Z,
      In y (AvlTree.elements (AvlTree.insert x (AvlTree.run ops))) <->
      y = x \/ In y (AvlTree.elements (AvlTree.run ops))) /\
  AvlTree.size (AvlTree.insert x (AvlTree.run ops)) =
    if AvlTree.search x (AvlTree.run ops)
    then AvlTree.size (AvlTree.run ops)
    else incr (AvlTree.size (AvlTree.run ops)).
Proof.
  destruct (set_run_avl ops) as [_ Hbst].
  destruct (set_run_avl (ops ++ [AvlTree.Insert x])) as [_ Hbst'].
  unfold AvlTree.run in Hbst'. rewrite fold_left_app in Hbst'.
  cbn [fold_left AvlTree.run_op] in Hbst'. fold (AvlTree.run ops) in Hbst'.
  assert (Hel : forall y : Z,
             In y (AvlTree.elements (AvlTree.insert x (AvlTree.run ops))) <->
             y = x \/ In y (AvlTree.elements (AvlTree.run ops))).
  { intros y. unfold AvlTree.elements. rewrite set_insert_root.
    rewrite (set_insert_util_inorder x _ _ Hbst).
    rewrite <- (map_id (add_absent _ _ _)).
    rewrite (add_absent_In (fun a => a)). now rewrite map_id. }
  split; [|split; [exact Hel|]].
  - unfold AvlTree.search. rewrite (set_search_existsb x _ Hbst').
    apply existsb_In. apply Hel. now left.
  - unfold AvlTree.size, AvlTree.search, AvlTree.insert.
    pose proof (set_insert_util_sz x (AvlTree.root (AvlTree.run ops))
                  (AvlTree.sz (AvlTree.run ops))) as Hsz.
    destruct (AvlTree.insert_util _ _ _) as [r n]. cbn [snd AvlTree.sz] in *.
    rewrite Hsz. destruct (is_null _); cbn [negb]; [reflexivity|].
    apply incr_decr, set_sz_range.
Qed.

(** X16.  [remove(x)] in every state reached by public operations on a fresh
    set: the tree is the same tree afterwards, so nothing is ever removed;
    [size()] is unchanged when [x] is an element and one less (modulo [2^64])
    when it is not. *)
Theorem set_remove_effect (ops : list AvlTree.op) (x : Z) :
  AvlTree.root (AvlTree.remove x (AvlTree.run ops)) = AvlTree.root (AvlTree.run ops) /\
  AvlTree.size (AvlTree.remove x (AvlTree.run ops)) =
    if AvlTree.search x (AvlTree.run ops)
    then AvlTree.size (AvlTree.run ops)
    else decr (AvlTree.size (AvlTree.run ops)).
Proof.
  split.
  - rewrite set_remove_root. apply set_remove_util_avl.
    apply avl_inv_iff. apply set_run_avl.
  - unfold AvlTree.size, AvlTree.search, AvlTree.remove.
    pose proof (set_remove_util_sz x (AvlTree.root (AvlTree.run ops))
                  (AvlTree.sz (AvlTree.run ops))) as Hsz.
    destruct (AvlTree.remove_util _ _ _) as [r n]. cbn [snd AvlTree.sz] in *.
    rewrite Hsz. destruct (is_null _); cbn [negb]; [reflexivity|].
    apply decr_incr, set_sz_range.
Qed.

(** ** Building a set from a sequence *)

Lemma set_from_list_run (xs : list Z) :
  AvlTree.from_list xs = AvlTree.run (map AvlTree.Insert xs).
Proof.
  unfold AvlTree.from_list, AvlTree.insert_all, AvlTree.run.
  now rewrite fold_left_map.
Qed.

Lemma set_from_list_snoc (xs : list Z) (x : Z) :
  AvlTree.from_list (xs ++ [x]) = AvlTree.insert x (AvlTree.from_list xs).
Proof.
  unfold AvlTree.from_list, AvlTree.insert_all. now rewrite fold_left_app.
Qed.

Lemma set_insert_In (s : AvlTree.t) (x y : Z) :
  AvlTree.bst s = true ->
  In y (AvlTree.elements (AvlTree.insert x s)) <->
  y = x \/ In y (AvlTree.elements s).
Proof.
  intros Hbst. unfold AvlTree.elements. rewrite set_insert_root.
  rewrite (set_insert_util_inorder x _ _ Hbst).
  rewrite <- (map_id (add_absent _ _ _)).
  rewrite (add_absent_In (fun a => a)). now rewrite map_id.
Qed.

Lemma set_insert_size (s : AvlTree.t) (x : Z) :
  0 <= AvlTree.sz s < 2 ^ 64 ->
  AvlTree.size (AvlTree.insert x s) =
  if AvlTree.search x s then AvlTree.size s else incr (AvlTree.size s).
Proof.
  intros Hs. unfold AvlTree.size, AvlTree.search, AvlTree.insert.
  pose proof (set_insert_util_sz x (AvlTree.root s) (AvlTree.sz s)) as Hsz.
  destruct (AvlTree.insert_util _ _ _) as [r n]. cbn [snd AvlTree.sz] in *.
  rewrite Hsz. destruct (is_null _); cbn [negb]; [reflexivity|].
  now apply incr_decr.
Qed.

Lemma add_absent_length (x : Z) (ks : list Z) :
  ascending ks = true ->
  length (add_absent (fun a => a) x ks) =
  if existsb (Z.eqb x) ks then length ks else S (length ks).
Proof.
  induction ks as [|k ks IH]; [reflexivity|].
  intros Hasc. apply ascending_cons in Hasc as [Hall Hasc].
  cbn [add_absent existsb].
  destruct (Z.ltb_spec x k) as [H1|H1].
  - destruct (Z.eqb_spec x k); [lia|]. cbn [orb].
    rewrite existsb_none; [reflexivity|].
    eapply Forall_impl; [|exact Hall]. cbn. intros a Ha. lia.
  - destruct (Z.ltb_spec k x) as [H2|H2].
    + destruct (Z.eqb_spec x k); [lia|]. cbn [orb length].
      rewrite (IH Hasc). now destruct (existsb (Z.eqb x) ks).
    + destruct (Z.eqb_spec x k); [reflexivity|lia].
Qed.

Lemma set_from_list_In (xs : list Z) (x : Z) :
  In x (AvlTree.elements (AvlTree.from_list xs)) <-> In x xs.
Proof.
  revert x. induction xs as [|a xs IH] using rev_ind; intros x; [reflexivity|].
  rewrite set_from_list_snoc, set_insert_In, in_app_iff, IH.
  - cbn [In]. intuition.
  - rewrite set_from_list_run. apply set_run_avl.
Qed.

(** X17.  The range and initializer-list constructors of the set: the
    in-order enumeration of the tree built from a sequence is strictly
    increasing, free of duplicates, and holds exactly the members of the
    sequence. *)
Theorem set_from_list_elements (xs : list Z) :
  StronglySorted Z.lt (AvlTree.elements (AvlTree.from_list xs)) /\
  NoDup (AvlTree.elements (AvlTree.from_list xs)) /\
  forall x : Z, In x (AvlTree.elements (AvlTree.from_list xs)) <-> In x xs.
Proof.
  assert (Hasc : ascending (AvlTree.elements (AvlTree.from_list xs)) = true)
    by (rewrite set_from_list_run; apply set_run_avl).
  split; [now apply ascending_sorted|].
  split; [now apply ascending_NoDup|].
  intros x. apply set_from_list_In.
Qed.

Lemma set_from_list_count (xs : list Z) :
  Z.of_nat (length xs) < 2 ^ 64 ->
  AvlTree.size (AvlTree.from_list xs) = node_count (AvlTree.root (AvlTree.from_list xs)) /\
  node_count (AvlTree.root (AvlTree.from_list xs)) <= Z.of_nat (length xs).
Proof.
  induction xs as [|a xs IH] using rev_ind; [intros _; cbn; lia|].
  rewrite length_app. cbn [length]. intros Hlen.
  destruct IH as [IHsz IHn]; [lia|].
  assert (Hbst : ascending (inorder (AvlTree.root (AvlTree.from_list xs))) = true)
    by (rewrite set_from_list_run; apply set_run_avl).
  assert (Hrange : 0 <= AvlTree.sz (AvlTree.from_list xs) < 2 ^ 64)
    by (rewrite set_from_list_run; apply set_sz_range).
  rewrite set_from_list_snoc, (set_insert_size _ a Hrange).
  rewrite (node_count_inorder (AvlTree.root (AvlTree.insert _ _))).
  rewrite set_insert_root, (set_insert_util_inorder a _ _ Hbst).
  rewrite (add_absent_length a _ Hbst).
  unfold AvlTree.search. rewrite (set_search_existsb a _ Hbst).
  rewrite node_count_inorder in IHsz, IHn.
  destruct (existsb (Z.eqb a) (inorder (AvlTree.root (AvlTree.from_list xs)))).
  - split; lia.
  - unfold incr. rewrite IHsz, wrap_small by lia. split; lia.
Qed.

(** X18.  A set built by insertions only: as long as fewer than [2^64]
    elements are inserted, [size()] is the number of nodes of the tree, that
    is the number of distinct elements inserted. *)
Theorem set_from_list_size (xs : list Z) :
  Z.of_nat (length xs) < 2 ^ 64 ->
  AvlTree.size (AvlTree.from_list xs) =
    node_count (AvlTree.root (AvlTree.from_list xs)) /\
  AvlTree.size (AvlTree.from_list xs) =
    Z.of_nat (length (AvlTree.elements (AvlTree.from_list xs))).
Proof.
  intros Hlen. destruct (set_from_list_count xs Hlen) as [Hsz _].
  split; [exact Hsz|]. rewrite Hsz. apply node_count_inorder.
Qed.

Lemma set_from_list_size_witness :
  Z.of_nat (length [3; 1; 3; 2; 1]) < 2 ^ 64 /\
  AvlTree.size (AvlTree.from_list [3; 1; 3; 2; 1]) = 3.
Proof.
  split; [cbn; lia|].
  destruct (set_from_list_size [3; 1; 3; 2; 1]) as [H _]; [cbn; lia|].
  rewrite H. reflexivity.
Defined.

(** The rightmost node carries the last element of the traversal. *)
Lemma findMax_inorder {A : Type} (l r : tree A) (d : A) (h : Z) :
  exists ml mr md mh rest,
    findMax (Node l r d h) = Node ml mr md mh /\
    inorder (Node l r d h) = rest ++ [md].
Proof.
  revert l d h. induction r as [|rl _ rr IHrr rd rh]; intros l d h.
  - exists l, Leaf, d, h, (inorder l). now split.
  - destruct (IHrr rl rd rh) as (ml & mr & md & mh & rest & E1 & E2).
    exists ml, mr, md, mh, (inorder l ++ d :: rest). split.
    + cbn [findMax]. exact E1.
    + change (inorder (Node l (Node rl rr rd rh) d h))
        with (inorder l ++ d :: inorder (Node rl rr rd rh)).
      rewrite E2. now rewrite <- app_assoc.
Qed.

(** X19.  [min_element()] and [max_element()] on a set built by insertions
    only, from a non-empty sequence of fewer than [2^64] elements: neither
    throws, and they return the least and the greatest element inserted. *)
Theorem set_min_max_after_inserts (xs : list Z) :
  0 < Z.of_nat (length xs) < 2 ^ 64 ->
  exists lo hi : Z,
    AvlTree.min_element (AvlTree.from_list xs) = Returned lo /\
    AvlTree.max_element (AvlTree.from_list xs) = Returned hi /\
    In lo xs /\ In hi xs /\
    forall x : Z, In x xs -> lo <= x <= hi.
Proof.
  intros [Hpos Hlen].
  destruct (set_from_list_count xs Hlen) as [Hsz _].
  assert (Hbst : ascending (inorder (AvlTree.root (AvlTree.from_list xs))) = true)
    by (rewrite set_from_list_run; apply set_run_avl).
  assert (Hmem : forall x, In x (inorder (AvlTree.root (AvlTree.from_list xs))) <-> In x xs)
    by (intros x; apply set_from_list_In).
  unfold AvlTree.min_element, AvlTree.max_element, AvlTree.empty.
  unfold AvlTree.size in Hsz. rewrite Hsz.
  destruct (AvlTree.root (AvlTree.from_list xs)) as [|l r d h] eqn:Hroot.
  - destruct xs as [|a xs']; [cbn in Hpos; lia|].
    exfalso. apply (proj2 (Hmem a)). now left.
  - pose proof (node_count_nonneg l). pose proof (node_count_nonneg r).
    cbn [node_count]. destruct (Z.eqb_spec (node_count l + node_count r + 1) 0); [lia|].
    destruct (findMin_inorder l r d h) as (nl & nr & lo & nh & rest1 & -> & E1).
    destruct (findMax_inorder l r d h) as (xl & xr & hi & xh & rest2 & -> & E2).
    exists lo, hi. cbn [deref]. split; [reflexivity|]. split; [reflexivity|].
    split; [apply Hmem; rewrite E1; now left|].
    split; [apply Hmem; rewrite E2; apply in_or_app; right; now left|].
    intros x Hx. apply Hmem in Hx. split.
    + rewrite E1 in Hx, Hbst. apply ascending_cons in Hbst as [Hall _].
      destruct Hx as [<-|Hx]; [lia|].
      rewrite Forall_forall in Hall. specialize (Hall x Hx). lia.
    + rewrite E2 in Hx, Hbst. apply ascending_app in Hbst as (_ & _ & Hall & _).
      apply in_app_or in Hx as [Hx|[<-|[]]]; [|lia].
      rewrite Forall_forall in Hall. specialize (Hall x Hx). lia.
Qed.

Lemma set_min_max_after_inserts_witness :
  0 < Z.of_nat (length [5; 2; 9; 2; 7]) < 2 ^ 64 /\
  exists lo hi : Z,
    AvlTree.min_element (AvlTree.from_list [5; 2; 9; 2; 7]) = Returned lo /\
    AvlTree.max_element (AvlTree.from_list [5; 2; 9; 2; 7]) = Returned hi /\
    In lo [5; 2; 9; 2; 7] /\ In hi [5; 2; 9; 2; 7] /\
    forall x : Z, In x [5; 2; 9; 2; 7] -> lo <= x <= hi.
Proof.
  split; [cbn; lia|].
  apply (set_min_max_after_inserts [5; 2; 9; 2; 7]). cbn. lia.
Defined.

(** ** The set on raw pointers *)

(** X20.  [min_element()] and [max_element()] of the raw-pointer set, in any
    state whatever the counter says: they throw exactly when the tree has no
    node, and otherwise return the first and the last element of the in-order
    enumeration. *)
Theorem raw_min_max_follow_the_tree (s : AvlTreeRaw.t) :
  AvlTreeRaw.min_element s =
    match AvlTreeRaw.elements s with
    | [] => Thrown EmptyContainer
    | x :: _ => Returned x
    end /\
  AvlTreeRaw.max_element s =
    match rev (AvlTreeRaw.elements s) with
    | [] => Thrown EmptyContainer
    | x :: _ => Returned x
    end.
Proof.
  unfold AvlTreeRaw.min_element, AvlTreeRaw.max_element, AvlTreeRaw.empty,
    AvlTreeRaw.elements.
  destruct (AvlTreeRaw.root s) as [|l r d h]; [split; reflexivity|].
  cbn [is_null].
  destruct (findMin_inorder l r d h) as (nl & nr & lo & nh & rest1 & -> & E1).
  destruct (findMax_inorder l r d h) as (xl & xr & hi & xh & rest2 & -> & E2).
  split; [now rewrite E1|].
  rewrite E2, rev_app_distr. reflexivity.
Qed.

Lemma raw_remove_util_first (t : tree Z) (m : Z) (rest : list Z) :
  ascending (inorder t) = true ->
  inorder t = m :: rest ->
  inorder (AvlTreeRaw.remove_util m t) = rest.
Proof.
  revert rest. induction t as [|l IHl r _ d h]; intros rest Hbst Hin; [discriminate|].
  pose proof Hbst as Hbst'. apply set_bst_node in Hbst' as (Hl & Hr & Hlt & Hgt).
  cbn [AvlTreeRaw.remove_util].
  destruct l as [|ll lr ld lh].
  - cbn [inorder app] in Hin. injection Hin as <- <-.
    rewrite Z.ltb_irrefl, Z.gtb_ltb, Z.ltb_irrefl.
    cbn [is_null negb andb]. now rewrite inorder_balance.
  - destruct (inorder_node_cons ll lr ld lh) as (a & rest' & E).
    cbn [inorder] in Hin. change (inorder ll ++ ld :: inorder lr)
      with (inorder (Node ll lr ld lh)) in Hin.
    rewrite E in Hin. cbn [app] in Hin. injection Hin as -> <-.
    rewrite E in Hlt. inversion Hlt as [|? ? Hm _]; subst.
    apply Z.ltb_lt in Hm. rewrite Hm.
    rewrite inorder_balance. cbn [inorder]. now rewrite (IHl rest' Hl E).
Qed.

Lemma raw_remove_util_inorder (x : Z) (t : tree Z) :
  ascending (inorder t) = true ->
  inorder (AvlTreeRaw.remove_util x t) = filter (fun k => negb (k =? x)) (inorder t).
Proof.
  induction t as [|l IHl r IHr d h]; intros Hbst; [reflexivity|].
  pose proof Hbst as Hbst'. apply set_bst_node in Hbst' as (Hl & Hr & Hlt & Hgt).
  cbn [inorder]. rewrite filter_app. cbn [filter].
  cbn [AvlTreeRaw.remove_util]. rewrite Z.gtb_ltb.
  destruct (Z.ltb_spec x d) as [H1|H1].
  - rewrite inorder_balance. cbn [inorder]. rewrite (IHl Hl).
    destruct (Z.eqb_spec d x) as [|_]; [lia|]. cbn [negb].
    rewrite (filter_neq_all x (inorder r)); [reflexivity|].
    eapply Forall_impl; [|exact Hgt]. cbn. intros a Ha. lia.
  - destruct (Z.ltb_spec d x) as [H2|H2].
    + rewrite inorder_balance. cbn [inorder]. rewrite (IHr Hr).
      destruct (Z.eqb_spec d x) as [|_]; [lia|]. cbn [negb].
      rewrite (filter_neq_all x (inorder l)); [reflexivity|].
      eapply Forall_impl; [|exact Hlt]. cbn. intros a Ha. lia.
    + assert (Hx : d = x) by lia. subst d.
      rewrite Z.eqb_refl. cbn [negb].
      rewrite (filter_neq_all x (inorder l))
        by (eapply Forall_impl; [|exact Hlt]; cbn; intros a Ha; lia).
      rewrite (filter_neq_all x (inorder r))
        by (eapply Forall_impl; [|exact Hgt]; cbn; intros a Ha; lia).
      destruct l as [|ll lr ld lh]; cbn [is_null negb andb].
      * now rewrite inorder_balance.
      * destruct r as [|rl rr rd rh]; cbn [is_null negb andb].
        -- rewrite inorder_balance. cbn [inorder]. now rewrite app_nil_r.
        -- destruct (findMin_inorder rl rr rd rh)
             as (ml & mr & md & mh & rest & -> & Erest).
           rewrite inorder_balance. cbn [inorder].
           rewrite (raw_remove_util_first _ md rest Hr Erest).
           change (inorder rl ++ rd :: inorder rr) with (inorder (Node rl rr rd rh)).
           now rewrite Erest.
Qed.

Lemma raw_insert_util_inorder (x : Z) (t : tree Z) :
  ascending (inorder t) = true ->
  inorder (AvlTreeRaw.insert_util x t) = add_absent (fun a => a) x (inorder t).
Proof.
  induction t as [|l IHl r IHr d h]; intros Hbst; [reflexivity|].
  apply set_bst_node in Hbst as (Hl & Hr & Hlt & Hgt).
  cbn [AvlTreeRaw.insert_util]. rewrite Z.gtb_ltb.
  destruct (Z.ltb_spec x d) as [H1|H1].
  - rewrite inorder_balance. cbn [inorder].
    rewrite (IHl Hl). symmetry. now apply (add_absent_app_lt (fun a => a)).
  - destruct (Z.ltb_spec d x) as [H2|H2].
    + rewrite inorder_balance. cbn [inorder].
      rewrite (IHr Hr). symmetry. apply (add_absent_app_gt (fun a => a)); [|exact H2].
      eapply Forall_impl; [|exact Hlt]. cbn. intros a Ha. lia.
    + rewrite inorder_balance. cbn [inorder].
      symmetry. apply (add_absent_app_eq (fun a => a)); [|lia].
      eapply Forall_impl; [|exact Hlt]. cbn. intros a Ha. lia.
Qed.

(** X21.  [remove(x)] of the raw-pointer set, on a tree whose in-order
    enumeration is strictly increasing: [x] is taken out, every other element
    stays, and the enumeration is still strictly increasing.  The counter is
    decremented whether or not [x] was there. *)
Theorem raw_remove_deletes_the_key (s : AvlTreeRaw.t) (x : Z) :
  ascending (AvlTreeRaw.elements s) = true ->
  AvlTreeRaw.elements (AvlTreeRaw.remove x s) =
    filter (fun k => negb (k =? x)) (AvlTreeRaw.elements s) /\
  ~ In x (AvlTreeRaw.elements (AvlTreeRaw.remove x s)) /\
  ascending (AvlTreeRaw.elements (AvlTreeRaw.remove x s)) = true /\
  AvlTreeRaw.size (AvlTreeRaw.remove x s) = decr (AvlTreeRaw.size s).
Proof.
  intros Hbst. unfold AvlTreeRaw.elements, AvlTreeRaw.remove in *.
  cbn [AvlTreeRaw.root]. rewrite (raw_remove_util_inorder x _ Hbst).
  split; [reflexivity|]. split; [|split; [now apply ascending_filter|reflexivity]].
  intros Hin. apply filter_In in Hin as [_ Hx]. now rewrite Z.eqb_refl in Hx.
Qed.

Lemma raw_remove_deletes_the_key_witness :
  ascending (AvlTreeRaw.elements (AvlTreeRaw.from_list [1;2;3;4;5;6;7])) = true /\
  AvlTreeRaw.elements (AvlTreeRaw.remove 4 (AvlTreeRaw.from_list [1;2;3;4;5;6;7])) =
    [1;2;3;5;6;7].
Proof.
  split; [reflexivity|].
  destruct (raw_remove_deletes_the_key (AvlTreeRaw.from_list [1;2;3;4;5;6;7]) 4 eq_refl)
    as [H _].
  rewrite H. reflexivity.
Defined.

(** X22.  [insert(x)] of the raw-pointer set, on a tree whose in-order
    enumeration is strictly increasing: the elements afterwards are the old
    ones and [x], still strictly increasing, and the number of nodes is
    unchanged when [x] was already there.  The counter is incremented in
    both cases, so a duplicate insertion leaves it one ahead of the tree. *)
Theorem raw_insert_adds_the_key (s : AvlTreeRaw.t) (x : Z) :
  ascending (AvlTreeRaw.elements s) = true ->
  (forall y : Z,
      In y (AvlTreeRaw.elements (AvlTreeRaw.insert x s)) <->
      y = x \/ In y (AvlTreeRaw.elements s)) /\
  ascending (AvlTreeRaw.elements (AvlTreeRaw.insert x s)) = true /\
  (In x (AvlTreeRaw.elements s) ->
   AvlTreeRaw.elements (AvlTreeRaw.insert x s) = AvlTreeRaw.elements s) /\
  AvlTreeRaw.size (AvlTreeRaw.insert x s) = incr (AvlTreeRaw.size s).
Proof.
  intros Hbst. unfold AvlTreeRaw.elements, AvlTreeRaw.insert in *.
  cbn [AvlTreeRaw.root]. rewrite (raw_insert_util_inorder x _ Hbst).
  split; [|split; [|split; [|reflexivity]]].
  - intros y. rewrite <- (map_id (add_absent _ _ _)).
    rewrite (add_absent_In (fun a => a)). now rewrite map_id.
  - rewrite <- (map_id (add_absent _ _ _)).
    apply (add_absent_ascending (fun a => a)). now rewrite map_id.
  - intros Hin.
    assert (Hasc : ascending (map (fun a => a) (inorder (AvlTreeRaw.root s))) = true)
      by now rewrite map_id.
    destruct (assoc (fun a => a) x (inorder (AvlTreeRaw.root s))) as [e|] eqn:E.
    + exact (add_absent_present (fun a => a) _ x e Hasc E).
    + exfalso. pose proof (assoc_existsb (fun a => a) (inorder (AvlTreeRaw.root s)) x) as Hex.
      rewrite E, map_id in Hex. symmetry in Hex.
      apply existsb_In in Hin. congruence.
Qed.

Lemma raw_insert_adds_the_key_witness :
  ascending (AvlTreeRaw.elements (AvlTreeRaw.from_list [1;2;3])) = true /\
  AvlTreeRaw.size (AvlTreeRaw.insert 2 (AvlTreeRaw.from_list [1;2;3])) = 4 /\
  AvlTreeRaw.elements (AvlTreeRaw.insert 2 (AvlTreeRaw.from_list [1;2;3])) = [1;2;3].
Proof.
  split; [reflexivity|].
  destruct (raw_insert_adds_the_key (AvlTreeRaw.from_list [1;2;3]) 2 eq_refl)
    as (_ & _ & Hsame & Hsz).
  split; [rewrite Hsz; reflexivity|].
  rewrite Hsame; [reflexivity|]. cbn. auto.
Defined.

(** ** Filling a map through [operator[]] *)

Lemma real_height_lower_bound {A : Type} (t : tree A) : -1 <= real_height t.
Proof. induction t as [|l IHl r IHr d h]; cbn [real_height]; lia. Qed.

Lemma right_spine_height (ks : list Z) :
  real_height (AvlMap.right_spine ks) = Z.of_nat (length ks) - 1.
Proof.
  induction ks as [|k ks IH]; [reflexivity|].
  cbn [AvlMap.right_spine real_height length].
  pose proof (real_height_lower_bound (AvlMap.right_spine ks)). lia.
Qed.

Lemma right_spine_inorder (ks : list Z) :
  map AvlMap.key (inorder (AvlMap.right_spine ks)) = ks.
Proof.
  induction ks as [|k ks IH]; [reflexivity|].
  cbn [AvlMap.right_spine inorder app map AvlMap.key]. now rewrite IH.
Qed.

(** The search for a key larger than every key of a spine ends in the empty
    slot at its bottom, and filling that slot extends the spine. *)
Lemma right_spine_extend (ks : list Z) (k : Z) :
  Forall (fun a => a < k) ks ->
  slot_get (AvlMap.search_path k (AvlMap.right_spine ks)) (AvlMap.right_spine ks) = Leaf /\
  slot_set (AvlMap.search_path k (AvlMap.right_spine ks))
           (Node Leaf Leaf (AvlMap.Entry k AvlMap.default_value) 0)
           (AvlMap.right_spine ks) =
  AvlMap.right_spine (ks ++ [k]).
Proof.
  induction 1 as [|a ks Ha _ [IH1 IH2]]; [split; reflexivity|].
  cbn [AvlMap.right_spine AvlMap.search_path AvlMap.key app].
  destruct (Z.eqb_spec a k); [lia|]. destruct (Z.ltb_spec k a); [lia|].
  cbn [slot_get slot_set]. split; [exact IH1|now rewrite IH2].
Qed.

(** X23.  Accessing strictly increasing keys one after the other through
    [operator[]] on a fresh map builds a tree without a single left child:
    each access hangs the new node below the previous one and rebalances
    nothing, so after [n] accesses the tree has height [n - 1] and every
    cached height is 0. *)
Theorem subscript_ascending_keys_build_a_spine (ks : list Z) :
  ascending ks = true ->
  AvlMap.root (AvlMap.run (map AvlMap.Subscript ks)) = AvlMap.right_spine ks /\
  real_height (AvlMap.root (AvlMap.run (map AvlMap.Subscript ks))) =
    Z.of_nat (length ks) - 1 /\
  AvlMap.keys (AvlMap.run (map AvlMap.Subscript ks)) = ks.
Proof.
  intros Hasc.
  assert (Hroot : AvlMap.root (AvlMap.run (map AvlMap.Subscript ks)) =
                  AvlMap.right_spine ks).
  { induction ks as [|k ks IH] using rev_ind; [reflexivity|].
    apply ascending_app in Hasc as (Hks & _ & Hlt & _).
    specialize (IH Hks).
    unfold AvlMap.run in *. rewrite map_app, fold_left_app.
    cbn [map fold_left AvlMap.run_op].
    unfold AvlMap.touch. rewrite subscript_result, IH.
    destruct (right_spine_extend ks k Hlt) as [Hslot Hset].
    rewrite Hslot. cbn [is_null AvlMap.root]. exact Hset. }
  rewrite Hroot. split; [reflexivity|].
  split; [apply right_spine_height|].
  unfold AvlMap.keys. rewrite Hroot. apply right_spine_inorder.
Qed.

Lemma subscript_ascending_keys_build_a_spine_witness :
  ascending [1; 2; 3; 5; 8; 13] = true /\
  real_height (AvlMap.root (AvlMap.run (map AvlMap.Subscript [1; 2; 3; 5; 8; 13]))) = 5.
Proof.
  split; [reflexivity|].
  destruct (subscript_ascending_keys_build_a_spine [1; 2; 3; 5; 8; 13] eq_refl)
    as (_ & H & _).
  rewrite H. reflexivity.
Defined.

(** ** Node count and counter of the map *)

Lemma add_absent_length_keyed {A : Type} (key_of : A -> Z) (a : A) (es : list A) :
  ascending (map key_of es) = true ->
  length (add_absent key_of a es) =
  if existsb (Z.eqb (key_of a)) (map key_of es) then length es else S (length es).
Proof.
  induction es as [|b es IH]; [reflexivity|].
  cbn [map]. intros Hasc. apply ascending_cons in Hasc as [Hall Hasc].
  cbn [add_absent existsb].
  destruct (Z.ltb_spec (key_of a) (key_of b)) as [H1|H1].
  - destruct (Z.eqb_spec (key_of a) (key_of b)); [lia|]. cbn [orb].
    rewrite existsb_none; [reflexivity|].
    eapply Forall_impl; [|exact Hall]. cbn. intros c Hc. lia.
  - destruct (Z.ltb_spec (key_of b) (key_of a)) as [H2|H2].
    + destruct (Z.eqb_spec (key_of a) (key_of b)); [lia|]. cbn [orb length].
      rewrite (IH Hasc). now destruct (existsb _ _).
    + destruct (Z.eqb_spec (key_of a) (key_of b)); [reflexivity|lia].
Qed.

Lemma filter_neq_length (k : Z) (ks : list Z) :
  ascending ks = true ->
  Z.of_nat (length (filter (fun x => negb (x =? k)) ks)) =
  Z.of_nat (length ks) - (if existsb (Z.eqb k) ks then 1 else 0).
Proof.
  induction ks as [|a ks IH]; [reflexivity|].
  intros Hasc. apply ascending_cons in Hasc as [Hall Hasc].
  cbn [filter existsb]. rewrite (Z.eqb_sym k a).
  destruct (Z.eqb_spec a k) as [->|Hne]; cbn [negb orb length].
  - rewrite filter_neq_all; [lia|].
    eapply Forall_impl; [|exact Hall]. cbn. intros c Hc. lia.
  - rewrite Nat2Z.inj_succ, (IH Hasc). lia.
Qed.

(** X24.  How [insert] and [erase] move the number of nodes, in every state
    reached by public operations on a fresh map: [insert(k, v)] adds one node
    when [k] was absent and none when it was present, [erase(k)] removes one
    node when [k] was present and none when it was absent.  The counter
    behind [size()] goes up by one on every [insert] and down by one on every
    [erase] (modulo [2^64]), whichever the case. *)
Theorem map_node_count_after_insert_and_erase (ops : list AvlMap.op) (k v : Z) :
  node_count (AvlMap.root (AvlMap.insert k v (AvlMap.run ops))) =
    node_count (AvlMap.root (AvlMap.run ops)) +
    match AvlMap.search k (AvlMap.run ops) with Some false => 1 | _ => 0 end /\
  node_count (AvlMap.root (AvlMap.erase k (AvlMap.run ops))) =
    node_count (AvlMap.root (AvlMap.run ops)) -
    match AvlMap.search k (AvlMap.run ops) with Some true => 1 | _ => 0 end /\
  AvlMap.size (AvlMap.insert k v (AvlMap.run ops)) = incr (AvlMap.size (AvlMap.run ops)) /\
  AvlMap.size (AvlMap.erase k (AvlMap.run ops)) = decr (AvlMap.size (AvlMap.run ops)).
Proof.
  destruct (map_run_ordered ops) as [Hbst _].
  rewrite (map_search_existsb k _ Hbst). unfold AvlMap.keys.
  split; [|split; [|split; reflexivity]].
  - rewrite !node_count_inorder.
    change (AvlMap.root (AvlMap.insert k v (AvlMap.run ops)))
      with (AvlMap.insert_util k v (AvlMap.root (AvlMap.run ops))).
    rewrite (map_insert_util_inorder k v _ Hbst).
    rewrite (add_absent_length_keyed AvlMap.key _ _ Hbst). cbn [AvlMap.key].
    destruct (existsb _ _); lia.
  - rewrite !node_count_inorder.
    rewrite <- (length_map AvlMap.key (inorder (AvlMap.root (AvlMap.erase _ _)))).
    rewrite <- (length_map AvlMap.key (inorder (AvlMap.root (AvlMap.run ops)))).
    unfold AvlMap.erase. cbn [AvlMap.root].
    rewrite (map_remove_util_keys k _ Hbst).
    rewrite (filter_neq_length k (map AvlMap.key (inorder (AvlMap.root (AvlMap.run ops)))) Hbst).
    destruct (existsb _ _); lia.
Qed.
